(** * xmlu: a shallow embedding of the XML unmarshalling engine

    The development follows [xmlu.py]:
    - [Py]      the Python 2 string builtins the converters call;
    - [node]    the part of [etree._Element] that the engine reads;
    - [schema]  instances of [Type] and of its subclasses;
    - [convert] [Type.__call__], i.e. the [_convert] method of each class,
                as a computation in a state-and-exception monad.

    The only state is the [_name] slot of [Attribute] instances, which
    [Object._convert] fills in on first use.  An exception leaves the store
    as it was when it was raised, as in Python.

    What is fixed once and for all:
    - the tag of an element and the names of attributes, those of an element
      and those a schema asks for, are well-formed names, which the engine
      only compares; the text and the attribute values are Python 2 string
      objects, [str] or [unicode];
    - [etree] is lxml, or [xml.etree.ElementTree] when lxml is not installed:
      the two differ, for the engine, in what [attrib.get(None, None)] does;
    - the aggregate an [Object] builds is an instance of the default class
      [_Object]; its [__dict__], like every [dict], is a finite map, since a
      Python 2 [dict] has no order of its own;
    - a schema is a finite tree, in which an [Attribute] instance may occur
      at several places. *)

From stdpp Require Import gmap strings list fin_maps.
From Stdlib Require Import ZArith Ascii String.

Local Open Scope string_scope.
Local Open Scope list_scope.
Set Warnings "-register-all,-clear-no-such-hyp".

(** ** Python 2 strings *)

(** A string object is a [str], a sequence of bytes, or a [unicode], a
    sequence of code points (of UTF-16 code units on a narrow build).  A
    parser hands out the text of an element as a [str] when it is ASCII and
    as a [unicode] otherwise. *)
Inductive pystr : Type :=
  | PyStr (s : string)
  | PyUnicode (u : list N).

(** The library that the name [etree] is bound to by the imports of the
    module. *)
Inductive library : Type :=
  | lxml
  | ElementTree.

(** ** Python builtins on strings *)

Module Py.

(** [str.isspace] of a single byte in the C locale. *)
Definition isspace (c : ascii) : bool :=
  let n := nat_of_ascii c in
  ((9 <=? n)%nat && (n <=? 13)%nat) || (n =? 32)%nat.

Fixpoint lstrip_with (sp : ascii → bool) (s : string) : string :=
  match s with
  | String c s' => if sp c then lstrip_with sp s' else s
  | EmptyString => EmptyString
  end.

Fixpoint rstrip_with (sp : ascii → bool) (s : string) : string :=
  match s with
  | String c s' =>
      match rstrip_with sp s' with
      | EmptyString => if sp c then EmptyString else String c EmptyString
      | r => String c r
      end
  | EmptyString => EmptyString
  end.

(** [s.strip()] *)
Definition strip (s : string) : string := rstrip_with isspace (lstrip_with isspace s).

Definition lower_char (c : ascii) : ascii :=
  let n := nat_of_ascii c in
  if (65 <=? n)%nat && (n <=? 90)%nat then ascii_of_nat (n + 32) else c.

Fixpoint map_chars (f : ascii → ascii) (s : string) : string :=
  match s with
  | String c s' => String (f c) (map_chars f s')
  | EmptyString => EmptyString
  end.

(** [s.lower()] *)
Definition lower (s : string) : string := map_chars lower_char s.

(** [s.replace(a, b)] for one-character [a] and [b]. *)
Definition replace (a b : ascii) (s : string) : string :=
  map_chars (λ c, if Ascii.eqb c a then b else c) s.

Fixpoint isascii (s : string) : bool :=
  match s with
  | String c s' => (nat_of_ascii c <? 128)%nat && isascii s'
  | EmptyString => true
  end.

Definition digit (c : ascii) : option Z :=
  let n := nat_of_ascii c in
  if (48 <=? n)%nat && (n <=? 57)%nat then Some (Z.of_nat (n - 48)) else None.

Fixpoint digits (acc : Z) (s : string) : option Z :=
  match s with
  | String c s' =>
      match digit c with
      | Some d => digits (10 * acc + d) s'
      | None => None
      end
  | EmptyString => Some acc
  end.

Definition unsigned (s : string) : option Z :=
  match s with
  | EmptyString => None
  | _ => digits 0 s
  end.

(** [ord(c)] *)
Definition ord (c : ascii) : N := N_of_ascii c.

(** The code points of a [str] that is ASCII: [s.decode('ascii')]. *)
Fixpoint codes (s : string) : list N :=
  match s with
  | String c s' => ord c :: codes s'
  | EmptyString => []
  end.

(** [u.encode('ascii')]; [None] stands for [UnicodeEncodeError]. *)
Fixpoint encode_ascii (u : list N) : option string :=
  match u with
  | c :: u' =>
      if (c <? 128)%N then String (ascii_of_N c) <$> encode_ascii u' else None
  | [] => Some EmptyString
  end.

(** [unichr(c).isspace()]: the whitespace of [unicode] in Python 2.7, whose
    character database is that of Unicode 5.2. *)
Definition isspace_unicode (c : N) : bool :=
  ((9 <=? c) && (c <=? 13) || (28 <=? c) && (c <=? 32) || (c =? 133) || (c =? 160)
   || (c =? 5760) || (c =? 6158) || (8192 <=? c) && (c <=? 8202)
   || (c =? 8232) || (c =? 8233) || (c =? 8239) || (c =? 8287) || (c =? 12288))%N.

Fixpoint lstrip_unicode (u : list N) : list N :=
  match u with
  | c :: u' => if isspace_unicode c then lstrip_unicode u' else u
  | [] => []
  end.

Fixpoint rstrip_unicode (u : list N) : list N :=
  match u with
  | c :: u' =>
      match rstrip_unicode u' with
      | [] => if isspace_unicode c then [] else [c]
      | r => c :: r
      end
  | [] => []
  end.

(** [u.strip()] on a [unicode] *)
Definition strip_unicode (u : list N) : list N := rstrip_unicode (lstrip_unicode u).

(** [t.replace(a, b)] for one-character [str] arguments [a] and [b] *)
Definition replace_text (a b : ascii) (t : pystr) : pystr :=
  match t with
  | PyStr s => PyStr (replace a b s)
  | PyUnicode u => PyUnicode ((λ c, if (c =? ord a)%N then ord b else c) <$> u)
  end.

(** [t == w] for a [str] [w]: a [unicode] is compared with the ASCII
    decoding of [w], and differs from a [w] that has none. *)
Definition eq_str (t : pystr) (w : string) : bool :=
  match t with
  | PyStr s => bool_decide (s = w)
  | PyUnicode u => isascii w && bool_decide (u = codes w)
  end.

(** The decimal literals [int] accepts: surrounding whitespace, an
    optional sign, at least one digit.  [None] stands for [ValueError]. *)
Definition decimal (s : string) : option Z :=
  match strip s with
  | String "-" s' => Z.opp <$> unsigned s'
  | String "+" s' => unsigned s'
  | s' => unsigned s'
  end.

(** An [int] that reads decimal literals, those of a [unicode] through
    their ASCII encoding. *)
Definition int_decimal (t : pystr) : option Z :=
  match t with
  | PyStr s => decimal s
  | PyUnicode u => encode_ascii u ≫= decimal
  end.

(** [float] and [complex] of an interpreter that accepts no literal. *)
Definition no_literal (t : pystr) : option Empty_set := None.

(** The case mapping of ASCII: every other code point is left as it is. *)
Definition tolower_ascii (c : N) : N :=
  if ((65 <=? c) && (c <=? 90))%N then (c + 32)%N else c.

(** An encoder that writes one byte for each code point: it agrees with
    [encode('utf-8')] on ASCII. *)
Definition encode_bytes (u : list N) : string :=
  fold_right (λ c s, String (ascii_of_N c) s) EmptyString u.

End Py.

(** ** Input trees *)

(** An element as the engine sees it: [v.tag], [v.attrib], [v.text] and
    iteration over [v]. *)
Inductive node : Type :=
  Node (tag : string) (attrib : gmap string pystr) (text : option pystr)
       (children : list node).

Definition tag (v : node) : string := let 'Node t _ _ _ := v in t.
Definition attrib (v : node) : gmap string pystr := let 'Node _ a _ _ := v in a.
Definition text (v : node) : option pystr := let 'Node _ _ x _ := v in x.
Definition children (v : node) : list node := let 'Node _ _ _ cs := v in cs.

(** ** Exceptions and results *)

Inductive exn : Type :=
  | ValueError
  | TypeError
  | AttributeError
  | UnicodeDecodeError
  | UnicodeEncodeError
  | UserError (what : string).

Inductive result (A : Type) : Type :=
  | Ok (a : A)
  | Raise (e : exn).
Arguments Ok {A} a.
Arguments Raise {A} e.

(** ** The engine, over the builtins and the library

    [int], [float] and [complex] are builtins of the interpreter: the engine
    is stated over their behaviour on a string argument, [None] standing for
    the [ValueError] they raise on an invalid literal (on a [unicode] with a
    character that is no digit, its subclass [UnicodeEncodeError]).  So are
    the case mapping of the character database, which [unicode.lower]
    applies to each character, and [unicode.encode('utf-8')], which returns
    on every [unicode].  [etree] is the library the module came to import. *)

Section Engine.

Context {pyfloat pycomplex : Type}.
Context (py_int : pystr → option Z).
Context (py_float : pystr → option pyfloat).
Context (py_complex : pystr → option pycomplex).
Context (unicode_tolower : N → N).
Context (encode_utf8 : list N → string).
Context (etree : library).

(** *** Converted values *)

Inductive value : Type :=
  | VNone
  | VInt (z : Z)
  | VFloat (x : pyfloat)
  | VComplex (c : pycomplex)
  | VStr (s : string)
  | VUnicode (u : list N)
  | VBool (b : bool)
  | VList (l : list value)
  | VDict (d : gmap string value)
  | VObject (__dict__ : gmap string value)
  | VElement (v : node).

(** *** Schemas: instances of [Type]

    [Attribute] instances are the only ones the engine mutates, so they carry
    an identity [id]: two occurrences with the same [id] are one Python
    object.  [_name] is the name fixed by the constructor; a name filled in
    later lives in the store, under [id].  The [attrs] of an [Object] are
    the pairs [(key, getattr(self, key))] for [key in dir(self)], in that
    order; [None] stands for a value that is not an instance of [Type]. *)

Inductive schema : Type :=
  | Object (_name : option string) (_none : bool)
           (_text : option (pystr → result value)) (_overwrite : bool)
           (attrs : list (string * option schema))
  | List (_type : schema) (_tag : option string) (_name : option string) (_none : bool)
  | Many (_type : schema) (_name : option string) (_none : bool)
  | Dict (_type : schema) (_overwrite : bool) (_name : option string) (_none : bool)
  | Attribute (id : nat) (_name : option string)
              (_type : option pystr → result value) (_none : bool)
  | AttributeOf (_attr : string) (_type : option pystr → result value)
                (_name : option string) (_none : bool)
  | Int (_name : option string) (_none : bool)
  | Float (_name : option string) (_none : bool)
  | Complex (_name : option string) (_none : bool)
  | Str (_strip : bool) (_name : option string) (_none : bool)
  | Unicode (_strip : bool) (_name : option string) (_none : bool)
  | Bool (_name : option string) (_none : bool)
  | Element (_name : option string) (_none : bool)
  | Value (_value : value) (_name : option string) (_none : bool).

(** [val._name] for a schema that is not an [Attribute]. *)
Definition name_of (val : schema) : option string :=
  match val with
  | Object n _ _ _ _ | List _ _ n _ | Many _ n _ | Dict _ _ n _
  | Attribute _ n _ _ | AttributeOf _ _ n _
  | Int n _ | Float n _ | Complex n _ | Str _ n _ | Unicode _ n _
  | Bool n _ | Element n _ | Value _ n _ => n
  end.

(** *** The conversion monad: a store of filled-in names, and exceptions *)

Definition M (A : Type) : Type := gmap nat string → gmap nat string * result A.

Definition ret {A} (a : A) : M A := λ σ, (σ, Ok a).
Definition lift {A} (r : result A) : M A := λ σ, (σ, r).
Definition bind {A B} (m : M A) (k : A → M B) : M B :=
  λ σ, match m σ with
       | (σ', Ok a) => k a σ'
       | (σ', Raise e) => (σ', Raise e)
       end.

Notation "x <- m ;; k" := (bind m (λ x, k))
  (at level 100, m at next level, right associativity).

(** [for x in l: s = body(s, x)] *)
Fixpoint for_each {A S} (body : S → A → M S) (l : list A) (s : S) : M S :=
  match l with
  | [] => ret s
  | x :: l' => s' <- body s x ;; for_each body l' s'
  end.

(** *** Builtin calls, on an argument that is [None] or a string *)

Definition int_ (o : option pystr) : result value :=
  match o with
  | None => Raise TypeError
  | Some s => match py_int s with Some z => Ok (VInt z) | None => Raise ValueError end
  end.

Definition float_ (o : option pystr) : result value :=
  match o with
  | None => Raise TypeError
  | Some s => match py_float s with Some x => Ok (VFloat x) | None => Raise ValueError end
  end.

Definition complex_ (s : pystr) : result value :=
  match py_complex s with Some c => Ok (VComplex c) | None => Raise ValueError end.

(** [str(o)], the default [_type] of [Attribute] and [AttributeOf]; a
    [unicode] is encoded as ASCII. *)
Definition str_ (o : option pystr) : result value :=
  match o with
  | None => Ok (VStr "None")
  | Some (PyStr s) => Ok (VStr s)
  | Some (PyUnicode u) =>
      match Py.encode_ascii u with
      | Some s => Ok (VStr s)
      | None => Raise UnicodeEncodeError
      end
  end.

(** [unicode(o)]; a [str] is decoded as ASCII. *)
Definition unicode_ (o : option pystr) : result (list N) :=
  match o with
  | None => Ok (Py.codes "None")
  | Some (PyStr s) => if Py.isascii s then Ok (Py.codes s) else Raise UnicodeDecodeError
  | Some (PyUnicode u) => Ok u
  end.

(** [t.strip()] and [t.lower()], which return a string of the type of [t] *)
Definition strip_ (t : pystr) : pystr :=
  match t with
  | PyStr s => PyStr (Py.strip s)
  | PyUnicode u => PyUnicode (Py.strip_unicode u)
  end.

Definition lower_ (t : pystr) : pystr :=
  match t with
  | PyStr s => PyStr (Py.lower s)
  | PyUnicode u => PyUnicode (unicode_tolower <$> u)
  end.

(** [v.attrib.get(key, None)], where [key] may itself be [None]: the [dict]
    of xml.etree has no such key, and lxml raises [TypeError]. *)
Definition attrib_get (a : gmap string pystr) (key : option string)
    : result (option pystr) :=
  match key with
  | Some k => Ok (a !! k)
  | None =>
      match etree with
      | lxml => Raise TypeError
      | ElementTree => Ok None
      end
  end.

Definition is_none {A} (o : option A) : bool :=
  match o with None => true | Some _ => false end.

(** *** Leaves *)

Definition Int_convert (_none : bool) (v : node) : result value :=
  if is_none (text v) && _none then Ok VNone else int_ (text v).

Definition Float_convert (_none : bool) (v : node) : result value :=
  if is_none (text v) && _none then Ok VNone else float_ (text v).

Definition Complex_convert (_none : bool) (v : node) : result value :=
  if is_none (text v) && _none then Ok VNone
  else match text v with
       | None => Raise AttributeError
       | Some s => complex_ (Py.replace_text "i" "j" s)
       end.

Definition Str_convert (_strip _none : bool) (v : node) : result value :=
  if is_none (text v) && _none then Ok VNone
  else match text v with
       | Some (PyStr s) => if _strip then Ok (VStr (Py.strip s)) else Ok (VStr s)
       | Some (PyUnicode u) =>
           if _strip then Ok (VStr (Py.strip (encode_utf8 u)))
           else Ok (VStr (encode_utf8 u))
       | None => Raise AttributeError
       end.

Definition Unicode_convert (_strip _none : bool) (v : node) : result value :=
  if is_none (text v) && _none then Ok VNone
  else match unicode_ (text v) with
       | Ok u =>
           if _strip then Ok (VUnicode (Py.strip_unicode u))
           else Ok (VUnicode u)
       | Raise e => Raise e
       end.

Definition true_words : list string := ["true"; "t"; "1"; "yes"; "y"].

Definition Bool_convert (_none : bool) (v : node) : result value :=
  if is_none (text v) && _none then Ok VNone
  else match text v with
       | None => Raise AttributeError
       | Some s =>
           if existsb (Py.eq_str (lower_ (strip_ s))) true_words
           then Ok (VBool true) else Ok (VBool false)
       end.

(** *** Attribute extractors *)

Definition AttributeOf_convert (_attr : string)
    (_type : option pystr → result value) (_none : bool) (v : node) : result value :=
  match attrib_get (attrib v) (Some _attr) with
  | Ok s => if is_none s && _none then Ok VNone else _type s
  | Raise e => Raise e
  end.

(** [self._name] of an [Attribute]: the constructor's, else the filled-in one. *)
Definition Attribute_name (id : nat) (_name : option string) (σ : gmap nat string)
    : option string :=
  match _name with
  | Some a => Some a
  | None => σ !! id
  end.

Definition Attribute_convert (id : nat) (_name : option string)
    (_type : option pystr → result value) (_none : bool) (v : node) : M value :=
  λ σ,
    (σ, match attrib_get (attrib v) (Attribute_name id _name σ) with
        | Ok s => if is_none s && _none then Ok VNone else _type s
        | Raise e => Raise e
        end).

(** [if getattr(val, '_name', None) is None: val._name = key] *)
Definition Attribute_fill (id : nat) (_name : option string) (key : string) : M unit :=
  λ σ,
    match Attribute_name id _name σ with
    | None => (<[id := key]> σ, Ok tt)
    | Some _ => (σ, Ok tt)
    end.

(** *** Collections, over the conversion [call] of their elements *)

Section Collections.

Variable call : node → schema → M value.

(** The body of the loop of [List._convert]. *)
Definition List_body (_type : schema) (_tag : option string)
    (l : list value) (node : node) : M (list value) :=
  if is_none _tag || bool_decide (_tag = Some (tag node))
  then x <- call node _type ;; ret (l ++ [x])%list
  else ret l.

Definition List_convert (_type : schema) (_tag : option string) (v : node) : M value :=
  l <- for_each (List_body _type _tag) (children v) [] ;;
  ret (VList l).

(** The body of the loop of [Many._convert]. *)
Definition Many_body (_type : schema) (_name : option string)
    (l : list value) (node : node) : M (list value) :=
  if is_none _name || bool_decide (Some (tag node) = _name)
  then x <- call node _type ;; ret (l ++ [x])%list
  else ret l.

Definition Many_convert (_type : schema) (_name : option string) (v : node) : M value :=
  l <- for_each (Many_body _type _name) (children v) [] ;;
  ret (VList l).

(** The body of the loop of [Dict._convert]. *)
Definition Dict_body (_type : schema) (_overwrite : bool)
    (d : gmap string value) (node : node) : M (gmap string value) :=
  if _overwrite || negb (bool_decide (is_Some (d !! tag node)))
  then x <- call node _type ;; ret (<[tag node := x]> d)
  else ret d.

Definition Dict_convert (_type : schema) (_overwrite : bool) (v : node) : M value :=
  d <- for_each (Dict_body _type _overwrite) (children v) ∅ ;;
  ret (VDict d).

(** *** Objects *)

(** The attributes of the class [_Object] that [hasattr] finds on a
    fresh aggregate and that can be field names. *)
Definition _Object_methods : list string :=
  ["get"; "has_key"; "items"; "iteritems"; "iterkeys"; "itervalues";
   "keys"; "values"; "viewkeys"; "viewvalues"].

(** [hasattr(obj, key)] for an instance of [_Object] *)
Definition hasattr (__dict__ : gmap string value) (key : string) : bool :=
  bool_decide (is_Some (__dict__ !! key)) || bool_decide (key ∈ _Object_methods).

(** [key and key[0] != '_'] *)
Definition public (key : string) : bool :=
  match key with
  | EmptyString => false
  | String c _ => negb (Ascii.eqb c "_")
  end.

(** The body of the loop over [dir(self)]. *)
Definition Object_bind (_overwrite : bool) (v : node)
    (st : gmap string value * gmap string (string * schema))
    (field : string * option schema)
    : M (gmap string value * gmap string (string * schema)) :=
  let '(obj, mapping) := st in
  let '(key, val) := field in
  if public key then
    match val with
    | Some val =>
        if _overwrite || negb (hasattr obj key) then
          match val with
          | Attribute id _name _type _none =>
              _ <- Attribute_fill id _name key ;;
              x <- Attribute_convert id _name _type _none v ;;
              ret (<[key := x]> obj, mapping)
          | Many _type _name _ =>
              x <- Many_convert _type _name v ;;
              ret (<[key := x]> obj, mapping)
          | _ =>
              match name_of val with
              | Some n => ret (obj, <[n := (key, val)]> mapping)
              | None => ret (obj, <[key := (key, val)]> mapping)
              end
          end
        else ret st
    | None => ret st
    end
  else ret st.

(** The body of the loop over the children of [v]. *)
Definition Object_scan (mapping : gmap string (string * schema))
    (obj : gmap string value) (node : node) : M (gmap string value) :=
  match mapping !! tag node with
  | Some (key, val) => x <- call node val ;; ret (<[key := x]> obj)
  | None => ret obj
  end.

Definition Object_text (_text : option (pystr → result value)) (v : node)
    (obj : gmap string value) : M (gmap string value) :=
  match _text with
  | Some f =>
      match text v with
      | Some s => x <- lift (f s) ;; ret (<["_text" := x]> obj)
      | None => ret (<["_text" := VNone]> obj)
      end
  | None => ret obj
  end.

Definition Object_convert (_text : option (pystr → result value))
    (_overwrite : bool) (attrs : list (string * option schema)) (v : node) : M value :=
  st <- for_each (Object_bind _overwrite v) attrs (∅, ∅) ;;
  obj <- for_each (Object_scan st.2) (children v) st.1 ;;
  obj <- Object_text _text v obj ;;
  ret (VObject obj).

End Collections.

(** *** [Type.__call__] *)

Fixpoint convert (v : node) (self : schema) {struct v} : M value :=
  match self with
  | Object _ _ _text _overwrite attrs => Object_convert convert _text _overwrite attrs v
  | List _type _tag _ _ => List_convert convert _type _tag v
  | Many _type _name _ => Many_convert convert _type _name v
  | Dict _type _overwrite _ _ => Dict_convert convert _type _overwrite v
  | Attribute id _name _type _none => Attribute_convert id _name _type _none v
  | AttributeOf _attr _type _ _none => lift (AttributeOf_convert _attr _type _none v)
  | Int _ _none => lift (Int_convert _none v)
  | Float _ _none => lift (Float_convert _none v)
  | Complex _ _none => lift (Complex_convert _none v)
  | Str _strip _ _none => lift (Str_convert _strip _none v)
  | Unicode _strip _ _none => lift (Unicode_convert _strip _none v)
  | Bool _ _none => lift (Bool_convert _none v)
  | Element _ _ => ret (VElement v)
  | Value _value _ _ => ret _value
  end.

(** *** Vocabulary of the properties *)

(** [self._none] *)
Definition none_of (self : schema) : bool :=
  match self with
  | Object _ n _ _ _ | List _ _ _ n | Many _ _ n | Dict _ _ _ n
  | Attribute _ _ _ n | AttributeOf _ _ _ n
  | Int _ n | Float _ n | Complex _ n | Str _ _ n | Unicode _ _ n
  | Bool _ n | Element _ n | Value _ _ n => n
  end.

(** The leaves that read [v.text] and hand it to a scalar constructor. *)
Definition scalar_leaf (self : schema) : bool :=
  match self with
  | Int _ _ | Float _ _ | Complex _ _ | Str _ _ _ | Unicode _ _ _ | Bool _ _ => true
  | _ => false
  end.

(** [[f(x) for x in l]], stopping at the first exception. *)
Fixpoint map_M {A B} (f : A → M B) (l : list A) : M (list B) :=
  match l with
  | [] => ret []
  | x :: l' => y <- f x ;; ys <- map_M f l' ;; ret (y :: ys)
  end.

(** A declared field: a public name bound to an instance of [Type]. *)
Definition declared (attrs : list (string * option schema)) (key : string) : Prop :=
  public key = true ∧ ∃ val, (key, Some val) ∈ attrs.

(** The element of the docstring of [Dict]:
    [<x><a>12</a><b>34</b><c>56</c><a>78</a></x>] *)
Definition x_xml : node :=
  Node "x" ∅ None
    [ Node "a" ∅ (Some (PyStr "12")) []; Node "b" ∅ (Some (PyStr "34")) [];
      Node "c" ∅ (Some (PyStr "56")) []; Node "a" ∅ (Some (PyStr "78")) [] ].

(** The element of the module docstring:
    [<foo bar="baz"><a/><b><s>qwe</s><s>asd</s></b><c x="y"/><c x="z"/><c/><i>200</i></foo>] *)
Definition foo_xml : node :=
  Node "foo" {[ "bar" := PyStr "baz" ]} None
    [ Node "a" ∅ None [];
      Node "b" ∅ None
        [ Node "s" ∅ (Some (PyStr "qwe")) []; Node "s" ∅ (Some (PyStr "asd")) [] ];
      Node "c" {[ "x" := PyStr "y" ]} None [];
      Node "c" {[ "x" := PyStr "z" ]} None [];
      Node "c" ∅ None [];
      Node "i" ∅ (Some (PyStr "200")) [] ].

(** What [dir] lists on every instance of [Object] before the fields of a
    subclass: names that start with an underscore, none of them bound to an
    instance of [Type]. *)
Definition Object_dir : list (string * option schema) :=
  (λ key, (key, None)) <$>
    [ "__call__"; "__class__"; "__delattr__"; "__dict__"; "__doc__";
      "__format__"; "__getattribute__"; "__hash__"; "__init__"; "__module__";
      "__new__"; "__reduce__"; "__reduce_ex__"; "__repr__"; "__setattr__";
      "__sizeof__"; "__str__"; "__subclasshook__"; "__weakref__";
      "_Object"; "_convert"; "_name"; "_none"; "_object"; "_overwrite"; "_text" ].

(** The class [MyObject] of the module docstring; its [Attribute] is
    instance number 0. *)
Definition MyObject : schema :=
  Object (Some "foo") true None false
    (Object_dir ++
     [ ("b", Some (List (Str false None true) None None true));
       ("bar", Some (Attribute 0 None str_ true));
       ("c", Some (Many (AttributeOf "x" str_ None true) (Some "c") true));
       ("num", Some (Int (Some "i") true)) ]).

(** A numeric leaf applied to a node whose text is not a literal of its kind;
    for [Complex], of the text after [replace('i', 'j')]. *)
Inductive invalid_literal : schema → node → Prop :=
  | invalid_Int _name _none v s :
      text v = Some s → py_int s = None → invalid_literal (Int _name _none) v
  | invalid_Float _name _none v s :
      text v = Some s → py_float s = None → invalid_literal (Float _name _none) v
  | invalid_Complex _name _none v s :
      text v = Some s → py_complex (Py.replace_text "i" "j" s) = None →
      invalid_literal (Complex _name _none) v.

(** [propagates v self σ σ']: starting in store [σ], the conversion of [v] by
    [self] reaches, through enclosing [Object], [List], [Many] and [Dict]
    conversions whose earlier steps all returned, a numeric leaf on an invalid
    literal, the store being [σ'] at that moment. *)
Inductive propagates : node → schema → gmap nat string → gmap nat string → Prop :=
  | propagates_leaf v self σ :
      invalid_literal self v → propagates v self σ σ
  | propagates_List v T _tag _name _none pre c post σ σ1 l σ2 :
      children v = pre ++ c :: post →
      for_each (List_body convert T _tag) pre [] σ = (σ1, Ok l) →
      is_none _tag || bool_decide (_tag = Some (tag c)) = true →
      propagates c T σ1 σ2 →
      propagates v (List T _tag _name _none) σ σ2
  | propagates_Many v T _name _none pre c post σ σ1 l σ2 :
      children v = pre ++ c :: post →
      for_each (Many_body convert T _name) pre [] σ = (σ1, Ok l) →
      is_none _name || bool_decide (Some (tag c) = _name) = true →
      propagates c T σ1 σ2 →
      propagates v (Many T _name _none) σ σ2
  | propagates_Dict v T _overwrite _name _none pre c post σ σ1 d σ2 :
      children v = pre ++ c :: post →
      for_each (Dict_body convert T _overwrite) pre ∅ σ = (σ1, Ok d) →
      _overwrite || negb (bool_decide (is_Some (d !! tag c))) = true →
      propagates c T σ1 σ2 →
      propagates v (Dict T _overwrite _name _none) σ σ2
  | propagates_Object_child v _name _none _text _overwrite attrs
        st pre c post obj key val σ σ1 σ2 σ3 :
      for_each (Object_bind convert _overwrite v) attrs (∅, ∅) σ = (σ1, Ok st) →
      children v = pre ++ c :: post →
      for_each (Object_scan convert st.2) pre st.1 σ1 = (σ2, Ok obj) →
      st.2 !! tag c = Some (key, val) →
      propagates c val σ2 σ3 →
      propagates v (Object _name _none _text _overwrite attrs) σ σ3
  | propagates_Object_Many v _name _none _text _overwrite attrs
        before key T _name' _none' after st σ σ1 σ2 :
      attrs = before ++ (key, Some (Many T _name' _none')) :: after →
      for_each (Object_bind convert _overwrite v) before (∅, ∅) σ = (σ1, Ok st) →
      public key = true →
      _overwrite || negb (hasattr st.1 key) = true →
      propagates v (Many T _name' _none') σ1 σ2 →
      propagates v (Object _name _none _text _overwrite attrs) σ σ2.

(** *** Attribute instances in a schema *)

(** The instances bound to an attribute of an [Object], at any depth: the ones
    [Object._convert] may name. *)
Fixpoint filled_ids (self : schema) : list nat :=
  match self with
  | Object _ _ _ _ attrs =>
      attrs ≫= λ field, match field.2 with
                         | Some (Attribute id _ _ _) => [id]
                         | Some val => filled_ids val
                         | None => []
                         end
  | List T _ _ _ | Many T _ _ | Dict T _ _ _ => filled_ids T
  | _ => []
  end.

(** The instances in any other place: the element type of a collection, or
    the schema itself.  There the engine reads [_name] and never sets it. *)
Fixpoint read_ids (self : schema) : list nat :=
  match self with
  | Object _ _ _ _ attrs =>
      attrs ≫= λ field, match field.2 with
                         | Some (Attribute id _ _ _) => []
                         | Some val => read_ids val
                         | None => []
                         end
  | List T _ _ _ | Many T _ _ | Dict T _ _ _ => read_ids T
  | Attribute id _ _ _ => [id]
  | _ => []
  end.

(** [ext F σ σ1]: [σ1] is [σ] with names filled in for instances in [F]
    that had none. *)
Definition ext (F : nat → Prop) (σ σ1 : gmap nat string) : Prop :=
  ∀ i, σ1 !! i = σ !! i ∨ (σ !! i = None ∧ is_Some (σ1 !! i) ∧ F i).

(** A computation that only fills in names of instances in [F]. *)
Definition frames (F : nat → Prop) {A} (m : M A) : Prop :=
  ∀ σ, ext F σ (m σ).1.

(** A computation that, run again in a store that extends the one it left and
    agrees with it on the instances in [R], changes nothing and gives the
    same result. *)
Definition replays (R : nat → Prop) {A} (m : M A) : Prop :=
  ∀ σ σ', (m σ).1 ⊆ σ' → (∀ i, R i → σ' !! i = (m σ).1 !! i) →
          m σ' = (σ', (m σ).2).

(** A schema whose named instances are all in [fills], and whose instances
    read in place are all in [reads]. *)
Definition covered (fills reads : nat → Prop) (self : schema) : Prop :=
  (∀ i, i ∈ filled_ids self → fills i) ∧ (∀ i, i ∈ read_ids self → reads i).

(** The same for the value of an attribute of an [Object]. *)
Definition covered_field (fills reads : nat → Prop) (val : schema) : Prop :=
  match val with
  | Attribute id _ _ _ => fills id
  | _ => covered fills reads val
  end.

(** The same for the schemas of a pending match table. *)
Definition covered_mapping (fills reads : nat → Prop)
    (mapping : gmap string (string * schema)) : Prop :=
  ∀ t key val, mapping !! t = Some (key, val) → covered fills reads val.

(** [Object._convert] from the middle of its first loop: [fields] are the
    attributes still to visit, [st] the aggregate and the match table. *)
Definition Object_from (call : node → schema → M value)
    (_text : option (pystr → result value)) (_overwrite : bool) (v : node)
    (fields : list (string * option schema))
    (st : gmap string value * gmap string (string * schema)) : M value :=
  st <- for_each (Object_bind call _overwrite v) fields st ;;
  obj <- for_each (Object_scan call st.2) (children v) st.1 ;;
  obj <- Object_text _text v obj ;;
  ret (VObject obj).

(** A computation that only fills in names of instances in [F] and that can
    be run again, the instances in [R] being the ones it reads in place. *)
Definition tame (F R : nat → Prop) {A} (m : M A) : Prop :=
  frames F m ∧ replays R m.



(** *** Further inputs *)

(** [<r><a>1</a><a>2</a></r>] and an [Object] with the field [a = Int()]. *)
Definition repeated_xml : node :=
  Node "r" ∅ None
    [ Node "a" ∅ (Some (PyStr "1")) []; Node "a" ∅ (Some (PyStr "2")) [] ].

Definition Repeated (overwrite : bool) : schema :=
  Object None true None overwrite (Object_dir ++ [ ("a", Some (Int None true)) ]).

(** [<o><r><c><l><k>x</k></l></c></r></o>] and an [Object] with the field
    [r = Object()], itself with the field
    [c = Many(List(Dict(Int())), name='c')]. *)
Definition nested_xml : node :=
  Node "o" ∅ None
    [ Node "r" ∅ None
        [ Node "c" ∅ None [ Node "l" ∅ None [ Node "k" ∅ (Some (PyStr "x")) [] ] ] ] ].

Definition Inner : schema :=
  Object None true None false
    (Object_dir ++
     [ ("c", Some (Many (List (Dict (Int None true) false None true) None None true)
                        (Some "c") true)) ]).

Definition Nested : schema :=
  Object None true None false (Object_dir ++ [ ("r", Some Inner) ]).

(** [<x keys="k" n="zero" x="w"><c x="v"/></x>] *)
Definition keys_xml : node :=
  Node "x" {[ "keys" := PyStr "k"; "n" := PyStr "zero"; "x" := PyStr "w" ]} None
    [ Node "c" {[ "x" := PyStr "v" ]} None [] ].

(** An [Object] with the field [keys = Attribute()]. *)
Definition Keys : schema :=
  Object None true None false
    (Object_dir ++ [ ("keys", Some (Attribute 0 None str_ true)) ]).





(** *** Vocabulary of the further properties *)

(** The children a [List] with [_tag = t], or a [Many] with [_name = t],
    converts: all of them when [t] is [None]. *)
Definition selected (t : option string) (c : node) : Prop :=
  t = None ∨ t = Some (tag c).

#[global] Instance selected_dec t c : Decision (selected t c).
Proof. unfold selected. apply _. Defined.

(** The children a [Dict] without [overwrite] converts: those whose tag is
    not in [seen] and has not occurred before. *)
Fixpoint first_of_each_tag (seen : gset string) (cs : list node) : list node :=
  match cs with
  | [] => []
  | c :: cs' =>
      if decide (tag c ∈ seen) then first_of_each_tag seen cs'
      else c :: first_of_each_tag ({[ tag c ]} ∪ seen) cs'
  end.

(** A field that [Object._convert] resolves against its own node. *)
Definition immediate (val : schema) : bool :=
  match val with
  | Attribute _ _ _ _ | Many _ _ _ => true
  | _ => false
  end.

(** The tag under which [Object._convert] registers any other field:
    [val._name], else the name of the field. *)
Definition match_name (key : string) (val : schema) : string :=
  default key (name_of val).

(** A converter handed to the engine that returns on every argument. *)
Definition returns_always {A} (f : A → result value) : Prop := ∀ a, ∃ x, f a = Ok x.

(** Schemas made of [Element], [Value], [Bool] and [Str] with the
    none-policy, attribute extractors and text converters that always
    return, and collections and objects of such schemas.  With lxml, an
    [Attribute] that is not an attribute of an [Object] has a name of its
    own: nothing else would name it before it is used. *)
Inductive never_raises : schema → Prop :=
  | never_raises_Element _name _none : never_raises (Element _name _none)
  | never_raises_Value x _name _none : never_raises (Value x _name _none)
  | never_raises_Bool _name : never_raises (Bool _name true)
  | never_raises_Str _strip _name : never_raises (Str _strip _name true)
  | never_raises_AttributeOf _attr _type _name _none :
      returns_always _type → never_raises (AttributeOf _attr _type _name _none)
  | never_raises_Attribute id _name _type _none :
      etree = ElementTree ∨ is_Some _name →
      returns_always _type → never_raises (Attribute id _name _type _none)
  | never_raises_List T _tag _name _none :
      never_raises T → never_raises (List T _tag _name _none)
  | never_raises_Many T _name _none :
      never_raises T → never_raises (Many T _name _none)
  | never_raises_Dict T _overwrite _name _none :
      never_raises T → never_raises (Dict T _overwrite _name _none)
  | never_raises_Object _name _none _text _overwrite attrs :
      (∀ f, _text = Some f → returns_always f) →
      (∀ key val, (key, Some val) ∈ attrs →
         never_raises val
         ∨ ∃ id _name' _type _none',
             val = Attribute id _name' _type _none' ∧ returns_always _type) →
      never_raises (Object _name _none _text _overwrite attrs).


(** *** Running computations *)

Lemma bind_Ok {A B} (m : M A) (k : A → M B) σ σ' a :
  m σ = (σ', Ok a) → bind m k σ = k a σ'.
Proof. unfold bind. by intros ->. Qed.

Lemma bind_Raise {A B} (m : M A) (k : A → M B) σ σ' e :
  m σ = (σ', Raise e) → bind m k σ = (σ', Raise e).
Proof. unfold bind. by intros ->. Qed.

Lemma bind_Ok_inv {A B} (m : M A) (k : A → M B) σ σ2 b :
  bind m k σ = (σ2, Ok b) → ∃ σ1 a, m σ = (σ1, Ok a) ∧ k a σ1 = (σ2, Ok b).
Proof.
  unfold bind. destruct (m σ) as [σ1 [a|e]]; [eauto | discriminate].
Qed.

Lemma bind_assoc {A B C} (m : M A) (k : A → M B) (h : B → M C) σ :
  bind (bind m k) h σ = bind m (λ a, bind (k a) h) σ.
Proof. unfold bind. destruct (m σ) as [σ1 [a|e]]; reflexivity. Qed.

Lemma bind_ext {A B} (m : M A) (k k' : A → M B) σ :
  (∀ a σ', k a σ' = k' a σ') → bind m k σ = bind m k' σ.
Proof. intros H. unfold bind. destruct (m σ) as [σ1 [a|e]]; auto. Qed.

Lemma for_each_app {A S} (body : S → A → M S) l1 l2 s σ :
  for_each body (l1 ++ l2) s σ = (s' <- for_each body l1 s ;; for_each body l2 s') σ.
Proof.
  revert s σ. induction l1 as [|x l1 IH]; intros s σ; [reflexivity|].
  simpl. rewrite bind_assoc. apply bind_ext. intros; apply IH.
Qed.

(** A loop that only appends converted elements is a [map_M] over the
    selected elements. *)
Lemma for_each_append {A B} (sel : A → Prop) `{!∀ x, Decision (sel x)}
    (f : A → M B) l acc σ :
  for_each (λ acc x, if bool_decide (sel x)
                     then y <- f x ;; ret (acc ++ [y])%list else ret acc) l acc σ
  = (ys <- map_M f (filter sel l) ;; ret (acc ++ ys)%list) σ.
Proof.
  revert acc σ. induction l as [|x l IH]; intros acc σ; simpl.
  - unfold bind, ret. by rewrite app_nil_r.
  - case_bool_decide as Hx.
    + rewrite filter_cons_True by done. simpl. rewrite !bind_assoc.
      apply bind_ext. intros y σ1. unfold ret at 1. unfold bind at 1.
      rewrite IH. rewrite !bind_assoc. apply bind_ext. intros ys σ2.
      unfold bind, ret. by rewrite <- app_assoc.
    + rewrite filter_cons_False by done. unfold bind at 1, ret at 1. apply IH.
Qed.

(** *** Leaves and attribute extractors *)

(** C4. A scalar leaf ([Int], [Float], [Complex], [Str], [Unicode], [Bool])
    whose none-policy is enabled converts a node without text to [None].
    The statement holds for every [int], [float] and [complex] the engine
    may be run with, also for ones that fail on every argument: the builtin
    is not called. *)
Theorem scalar_leaf_absent_text (self : schema) (v : node) σ :
  scalar_leaf self = true → none_of self = true → text v = None →
  convert v self σ = (σ, Ok VNone).
Proof.
  intros Hleaf Hnone Htext. destruct v as [t a x cs]. simpl in Htext. subst x.
  destruct self; simpl in Hleaf, Hnone; try discriminate; subst; reflexivity.
Qed.

Lemma existsb_eq_str_bytes s (words : list string) :
  existsb (Py.eq_str (PyStr s)) words = bool_decide (s ∈ words).
Proof.
  induction words as [|w words IH]; cbn [existsb Py.eq_str].
  - symmetry. apply bool_decide_eq_false_2. apply not_elem_of_nil.
  - rewrite IH. repeat case_bool_decide; cbn [orb]; try done; set_solver.
Qed.

Lemma existsb_eq_str_unicode u (words : list string) :
  forallb Py.isascii words = true →
  existsb (Py.eq_str (PyUnicode u)) words = bool_decide (u ∈ Py.codes <$> words).
Proof.
  induction words as [|w words IH]; cbn [existsb forallb Py.eq_str fmap list_fmap];
    intros Hascii.
  - symmetry. apply bool_decide_eq_false_2. apply not_elem_of_nil.
  - apply andb_prop in Hascii as [-> Hascii]. rewrite (IH Hascii).
    repeat case_bool_decide; cbn [orb andb]; try done; set_solver.
Qed.

(** C6. On a node with text, a [str] or a [unicode], [Bool] returns [True]
    exactly when [text.strip().lower()] is one of 'true', 't', '1', 'yes',
    'y', and [False] for any other text; it raises nothing, whatever the
    none-policy.  For a [str], [strip] and [lower] are those of bytes; for a
    [unicode], they follow the whitespace and the case mapping of the
    character database, and the outcome is compared with the five words
    read as ASCII. *)
Theorem Bool_convert_present (_name : option string) (_none : bool) (v : node) t σ :
  text v = Some t →
  convert v (Bool _name _none) σ =
    (σ, Ok (VBool
              match t with
              | PyStr s =>
                  bool_decide (Py.lower (Py.strip s) ∈ ["true"; "t"; "1"; "yes"; "y"])
              | PyUnicode u =>
                  bool_decide (unicode_tolower <$> Py.strip_unicode u
                               ∈ Py.codes <$> ["true"; "t"; "1"; "yes"; "y"])
              end)).
Proof.
  intros Htext. destruct v as [tg a x cs]. simpl in Htext. subst x.
  cbn [convert]. unfold lift, Bool_convert. cbn [text is_none andb].
  destruct t as [s|u]; cbn [strip_ lower_].
  - rewrite existsb_eq_str_bytes. unfold true_words. by case_bool_decide.
  - rewrite existsb_eq_str_unicode by reflexivity. unfold true_words.
    by case_bool_decide.
Qed.

(** C9. With the none-policy disabled and the default converter [str], an
    [Attribute] or [AttributeOf] applied to a node that lacks the attribute
    returns the string 'None': no exception, no [None]. *)
Theorem attribute_missing_is_None_string :
  (∀ id _name a v σ,
      Attribute_name id _name σ = Some a → attrib v !! a = None →
      convert v (Attribute id _name str_ false) σ = (σ, Ok (VStr "None")))
  ∧ (∀ a _name v σ,
      attrib v !! a = None →
      convert v (AttributeOf a str_ _name false) σ = (σ, Ok (VStr "None"))).
Proof.
  split.
  - intros id nm a [t at' x cs] σ Hname Hmiss. simpl in Hmiss.
    cbn. unfold Attribute_convert. rewrite Hname. simpl. by rewrite Hmiss.
  - intros a nm [t at' x cs] σ Hmiss. simpl in Hmiss.
    cbn. unfold lift, AttributeOf_convert. simpl. by rewrite Hmiss.
Qed.

(** *** Many and List *)

Lemma tag_filter_eq (X : string) (node : node) :
  is_none (Some X) || bool_decide (Some X = Some (tag node)) = bool_decide (tag node = X).
Proof. simpl. apply bool_decide_ext. split; [by intros [= ->] | by intros ->]. Qed.

Lemma name_filter_eq (X : string) (node : node) :
  is_none (Some X) || bool_decide (Some (tag node) = Some X) = bool_decide (tag node = X).
Proof. simpl. apply bool_decide_ext. split; [by intros [= ->] | by intros ->]. Qed.

Lemma for_each_ext {A S} (body body' : S → A → M S) l s σ :
  (∀ s x σ, body s x σ = body' s x σ) →
  for_each body l s σ = for_each body' l s σ.
Proof.
  intros H. revert s σ. induction l as [|x l IH]; intros s σ; [reflexivity|].
  simpl. unfold bind. rewrite H. destruct (body' s x σ) as [σ1 [s1|e]]; auto.
Qed.

Lemma List_convert_filter call (_type : schema) (X : string) v σ :
  List_convert call _type (Some X) v σ
  = (l <- map_M (λ c, call c _type) (filter (λ c, tag c = X) (children v)) ;;
     ret (VList l)) σ.
Proof.
  unfold List_convert.
  unfold bind at 1.
  rewrite (for_each_ext (List_body _ _ _)
    (λ acc x, if bool_decide (tag x = X)
              then y <- call x _type ;; ret (acc ++ [y])%list else ret acc)).
  2:{ intros. unfold List_body. by rewrite tag_filter_eq. }
  rewrite (for_each_append (λ c, tag c = X)). simpl.
  unfold bind, ret. by destruct (map_M _ _ σ) as [σ1 [l|e]].
Qed.

Lemma Many_convert_filter call (_type : schema) (X : string) v σ :
  Many_convert call _type (Some X) v σ
  = (l <- map_M (λ c, call c _type) (filter (λ c, tag c = X) (children v)) ;;
     ret (VList l)) σ.
Proof.
  unfold Many_convert.
  unfold bind at 1.
  rewrite (for_each_ext (Many_body _ _ _)
    (λ acc x, if bool_decide (tag x = X)
              then y <- call x _type ;; ret (acc ++ [y])%list else ret acc)).
  2:{ intros. unfold Many_body. by rewrite name_filter_eq. }
  rewrite (for_each_append (λ c, tag c = X)). simpl.
  unfold bind, ret. by destruct (map_M _ _ σ) as [σ1 [l|e]].
Qed.

(** C3. [Many(T, name=X)] and [List(T, tag=X)] convert a node [v] alike:
    both give the conversions by [T] of the children of [v] whose tag is
    [X], in document order (and both stop at the first exception). *)
Theorem Many_as_List (T : schema) (X : string) (_name : option string)
    (_none _none' : bool) (v : node) σ :
  convert v (Many T (Some X) _none) σ = convert v (List T (Some X) _name _none') σ
  ∧ convert v (Many T (Some X) _none) σ
    = (l <- map_M (λ c, convert c T) (filter (λ c, tag c = X) (children v)) ;;
       ret (VList l)) σ.
Proof.
  destruct v as [t a x cs]. cbn [convert].
  rewrite Many_convert_filter, List_convert_filter. done.
Qed.

(** *** Loop invariants *)

Lemma for_each_inv {A S} (P : S → Prop) (body : S → A → M S) l s σ σ' s' :
  (∀ s x σ σ' s', P s → x ∈ l → body s x σ = (σ', Ok s') → P s') →
  P s → for_each body l s σ = (σ', Ok s') → P s'.
Proof.
  revert s σ. induction l as [|x l IH]; intros s σ Hbody Hs Hrun; simpl in Hrun.
  - by injection Hrun as _ <-.
  - apply bind_Ok_inv in Hrun as (σ1 & s1 & Hx & Hrest).
    eapply IH; [| |exact Hrest].
    + intros. eapply Hbody; eauto. by right.
    + eapply Hbody; eauto. by left.
Qed.

Lemma Object_bind_declared call ow v attrs st field σ σ' st' :
  field ∈ attrs →
  (∀ k, is_Some (st.1 !! k) → declared attrs k) →
  (∀ t key val, st.2 !! t = Some (key, val) → declared attrs key) →
  Object_bind call ow v st field σ = (σ', Ok st') →
  (∀ k, is_Some (st'.1 !! k) → declared attrs k) ∧
  (∀ t key val, st'.2 !! t = Some (key, val) → declared attrs key).
Proof.
  destruct st as [obj mapping], field as [key val]. simpl.
  intros Hin Hobj Hmap Hrun.
  destruct (public key) eqn:Hpub; [|by injection Hrun as _ <-].
  destruct val as [val|]; [|by injection Hrun as _ <-].
  destruct (ow || negb (hasattr obj key)); [|by injection Hrun as _ <-].
  assert (Hdecl : declared attrs key) by (split; eauto).
  assert (Hreg : ∀ n st', ret (obj, <[n := (key, val)]> mapping) σ = (σ', Ok st') →
    (∀ k, is_Some (st'.1 !! k) → declared attrs k) ∧
    (∀ t key val, st'.2 !! t = Some (key, val) → declared attrs key)).
  { intros n st1 [= _ <-]. simpl. split; [done|].
    intros t key' val' Hl. destruct (decide (n = t)) as [->|Hne].
    - rewrite lookup_insert_eq in Hl. by injection Hl as <- <-.
    - rewrite lookup_insert_ne in Hl by done. eauto. }
  assert (Hset : ∀ (m : M value) σ0,
    (x <- m ;; ret (<[key := x]> obj, mapping)) σ0 = (σ', Ok st') →
    (∀ k, is_Some (st'.1 !! k) → declared attrs k) ∧
    (∀ t key val, st'.2 !! t = Some (key, val) → declared attrs key)).
  { intros m σ0 Hm. apply bind_Ok_inv in Hm as (σ1 & x & _ & [= _ <-]). simpl.
    split; [|done]. intros k Hk. destruct (decide (key = k)) as [<-|Hne]; [done|].
    rewrite lookup_insert_ne in Hk by done. eauto. }
  destruct val; simpl in Hrun;
    try (destruct _name; eapply Hreg; exact Hrun).
  - eapply Hset. exact Hrun.
  - apply bind_Ok_inv in Hrun as (σ1 & [] & _ & Hrun). eapply Hset. exact Hrun.
Qed.

Lemma Object_scan_declared call attrs mapping obj node σ σ' obj' :
  (∀ k, is_Some (obj !! k) → declared attrs k) →
  (∀ t key val, mapping !! t = Some (key, val) → declared attrs key) →
  Object_scan call mapping obj node σ = (σ', Ok obj') →
  ∀ k, is_Some (obj' !! k) → declared attrs k.
Proof.
  unfold Object_scan. intros Hobj Hmap Hrun.
  destruct (mapping !! tag node) as [[key val]|] eqn:Hl.
  - apply bind_Ok_inv in Hrun as (σ1 & x & _ & [= _ <-]).
    intros k Hk. destruct (decide (key = k)) as [<-|Hne]; [eauto|].
    rewrite lookup_insert_ne in Hk by done. eauto.
  - by injection Hrun as _ <-.
Qed.

Lemma declared_not_text attrs : ¬ declared attrs "_text".
Proof. by intros [? _]. Qed.

(** C10. The keys of the aggregate an [Object] returns are names of its
    public [Type]-valued attributes, plus ['_text'], which is present exactly
    when a text converter is configured.  This holds for every node: a child
    whose tag matches no registered field adds no key. *)
Theorem Object_keys_declared (_name : option string) (_none : bool)
    (_text : option (pystr → result value)) (_overwrite : bool)
    (attrs : list (string * option schema)) (v : node) σ σ' r :
  convert v (Object _name _none _text _overwrite attrs) σ = (σ', Ok r) →
  ∃ obj, r = VObject obj
    ∧ (∀ k, is_Some (obj !! k) →
            (public k = true ∧ ∃ val, (k, Some val) ∈ attrs)
            ∨ (k = "_text" ∧ is_Some _text))
    ∧ (is_Some (obj !! "_text") ↔ is_Some _text).
Proof.
  destruct v as [t a x cs]. cbn [convert]. unfold Object_convert. intros Hrun.
  apply bind_Ok_inv in Hrun as (σ1 & st & Hbind & Hrun).
  apply bind_Ok_inv in Hrun as (σ2 & obj & Hscan & Hrun).
  apply bind_Ok_inv in Hrun as (σ3 & obj' & Htext & [= _ <-]).
  assert (Hst : (∀ k, is_Some (st.1 !! k) → declared attrs k) ∧
                (∀ t key val, st.2 !! t = Some (key, val) → declared attrs key)).
  { eapply (for_each_inv (λ st, (∀ k, is_Some (st.1 !! k) → declared attrs k) ∧
                (∀ t key val, st.2 !! t = Some (key, val) → declared attrs key)));
      [| |exact Hbind].
    - intros st0 f σa σb st1 [H1 H2] Hin Hf. eapply Object_bind_declared; eauto.
    - simpl. split; [intros k [? Hk] | intros ??? Hk]; by rewrite lookup_empty in Hk. }
  destruct Hst as [Hst1 Hst2].
  assert (Hobj : ∀ k, is_Some (obj !! k) → declared attrs k).
  { eapply (for_each_inv (λ obj, ∀ k, is_Some (obj !! k) → declared attrs k));
      [| exact Hst1 | exact Hscan].
    intros o c σa σb o' Ho _ Hc. eapply Object_scan_declared; eauto. }
  assert (Hnt : obj !! "_text" = None).
  { destruct (obj !! "_text") eqn:E; [|done].
    destruct (declared_not_text attrs). apply Hobj. by rewrite E. }
  exists obj'. split; [done|]. unfold Object_text in Htext.
  destruct _text as [f|].
  - assert (∃ y, obj' = <["_text" := y]> obj) as [y ->].
    { simpl in Htext. destruct x as [s|].
      - apply bind_Ok_inv in Htext as (? & y & _ & [= _ <-]). eauto.
      - injection Htext as _ <-. eauto. }
    split.
    + intros k Hk. destruct (decide ("_text" = k)) as [<-|Hne]; [right; eauto|].
      rewrite lookup_insert_ne in Hk by done. left. by apply Hobj.
    + rewrite lookup_insert_eq. split; eauto.
  - injection Htext as _ <-. split.
    + intros k Hk. left. by apply Hobj.
    + rewrite Hnt. split; intros [? ?]; done.
Qed.

(** *** The loop over the children *)

Lemma Object_scan_untouched call mapping l key : ∀ obj σ σ' obj',
  for_each (Object_scan call mapping) l obj σ = (σ', Ok obj') →
  (∀ c key' val', c ∈ l → mapping !! tag c = Some (key', val') → key' ≠ key) →
  obj' !! key = obj !! key.
Proof.
  induction l as [|c l IH]; intros obj σ σ' obj' Hrun Hother; simpl in Hrun.
  - by injection Hrun as _ <-.
  - apply bind_Ok_inv in Hrun as (σ1 & obj1 & Hc & Hrest).
    rewrite (IH _ _ _ _ Hrest) by (intros c' ????; eapply Hother; [by right|done]).
    unfold Object_scan in Hc.
    destruct (mapping !! tag c) as [[key' val']|] eqn:Hl.
    + apply bind_Ok_inv in Hc as (σ2 & x & _ & [= _ <-]).
      rewrite lookup_insert_ne; [done|]. eapply Hother; [by left|exact Hl].
    + by injection Hc as _ <-.
Qed.

(** Whatever [_overwrite] is, a child registered for an output key sets it,
    and the last such child is the one whose conversion the aggregate keeps. *)
Lemma Object_scan_last call mapping pre c post obj σ σ' obj' key val :
  for_each (Object_scan call mapping) (pre ++ c :: post) obj σ = (σ', Ok obj') →
  mapping !! tag c = Some (key, val) →
  (∀ c' key' val', c' ∈ post → mapping !! tag c' = Some (key', val') → key' ≠ key) →
  ∃ σ1 obj1 σ2 x,
    for_each (Object_scan call mapping) pre obj σ = (σ1, Ok obj1)
    ∧ call c val σ1 = (σ2, Ok x) ∧ obj' !! key = Some x.
Proof.
  intros Hrun Hc Hpost. rewrite for_each_app in Hrun.
  apply bind_Ok_inv in Hrun as (σ1 & obj1 & Hpre & Hrun). simpl in Hrun.
  apply bind_Ok_inv in Hrun as (σ2 & obj2 & Hstep & Hrest).
  unfold Object_scan in Hstep. rewrite Hc in Hstep.
  apply bind_Ok_inv in Hstep as (σ3 & x & Hx & [= <- <-]).
  exists σ1, obj1, σ3, x. split; [done|]. split; [done|].
  rewrite (Object_scan_untouched _ _ _ _ _ _ _ _ Hrest Hpost).
  apply lookup_insert_eq.
Qed.

(** *** Dict *)

Lemma Dict_body_untouched call T ow l : ∀ d σ σ' d' k,
  for_each (Dict_body call T ow) l d σ = (σ', Ok d') →
  k ∉ tag <$> l → d' !! k = d !! k.
Proof.
  induction l as [|c l IH]; intros d σ σ' d' k Hrun Hk; simpl in Hrun.
  - by injection Hrun as _ <-.
  - apply bind_Ok_inv in Hrun as (σ1 & d1 & Hc & Hrest).
    rewrite fmap_cons, not_elem_of_cons in Hk. destruct Hk as [Hne Hk].
    rewrite (IH _ _ _ _ _ Hrest Hk). unfold Dict_body in Hc.
    destruct (ow || _).
    + apply bind_Ok_inv in Hc as (? & x & _ & [= _ <-]). by rewrite lookup_insert_ne.
    + by injection Hc as _ <-.
Qed.

Lemma Dict_body_kept call T l : ∀ d σ σ' d' k x,
  for_each (Dict_body call T false) l d σ = (σ', Ok d') →
  d !! k = Some x → d' !! k = Some x.
Proof.
  induction l as [|c l IH]; intros d σ σ' d' k x Hrun Hk; simpl in Hrun.
  - by injection Hrun as _ <-.
  - apply bind_Ok_inv in Hrun as (σ1 & d1 & Hc & Hrest).
    eapply IH; [exact Hrest|]. unfold Dict_body in Hc. simpl in Hc.
    case_bool_decide as Hd; simpl in Hc.
    + by injection Hc as _ <-.
    + apply bind_Ok_inv in Hc as (? & y & _ & [= _ <-]).
      rewrite lookup_insert_ne; [done|]. intros <-. apply Hd. by rewrite Hk.
Qed.

Lemma Dict_body_stored call T ow d c σ σ' d' :
  ow = true ∨ d !! tag c = None →
  Dict_body call T ow d c σ = (σ', Ok d') →
  ∃ x, call c T σ = (σ', Ok x) ∧ d' = <[tag c := x]> d.
Proof.
  intros Hgo Hrun. unfold Dict_body in Hrun.
  assert (ow || negb (bool_decide (is_Some (d !! tag c))) = true) as Hcond.
  { destruct Hgo as [->| ->]; [done|]. rewrite bool_decide_false; [by destruct ow|].
    by intros [? ?]. }
  rewrite Hcond in Hrun. apply bind_Ok_inv in Hrun as (σ2 & x & Hx & [= <- <-]). eauto.
Qed.

(** C5. [Dict(Int())] on the children a:12, b:34, c:56, a:78 gives
    {a:12, b:34, c:56}, and {a:78, b:34, c:56} with [overwrite=True].  In
    general, when a [Dict] conversion returns [d]: without [overwrite], a
    child [c] that is the first with its tag has its conversion at [d[c.tag]];
    with [overwrite], a child that is the last with its tag has. *)
Theorem Dict_duplicate_tags :
  (py_int (PyStr "12") = Some 12%Z → py_int (PyStr "34") = Some 34%Z →
   py_int (PyStr "56") = Some 56%Z → py_int (PyStr "78") = Some 78%Z →
   ∀ σ,
     convert x_xml (Dict (Int None true) false None true) σ
       = (σ, Ok (VDict {[ "a" := VInt 12; "b" := VInt 34; "c" := VInt 56 ]}))
   ∧ convert x_xml (Dict (Int None true) true None true) σ
       = (σ, Ok (VDict {[ "a" := VInt 78; "b" := VInt 34; "c" := VInt 56 ]})))
  ∧ (∀ T _name _none v σ σ' d pre c post,
       convert v (Dict T false _name _none) σ = (σ', Ok (VDict d)) →
       children v = pre ++ c :: post → tag c ∉ tag <$> pre →
       ∃ σ1 d1 σ2 x,
         for_each (Dict_body convert T false) pre ∅ σ = (σ1, Ok d1)
         ∧ convert c T σ1 = (σ2, Ok x) ∧ d !! tag c = Some x)
  ∧ (∀ T _name _none v σ σ' d pre c post,
       convert v (Dict T true _name _none) σ = (σ', Ok (VDict d)) →
       children v = pre ++ c :: post → tag c ∉ tag <$> post →
       ∃ σ1 d1 σ2 x,
         for_each (Dict_body convert T true) pre ∅ σ = (σ1, Ok d1)
         ∧ convert c T σ1 = (σ2, Ok x) ∧ d !! tag c = Some x).
Proof.
  split; [|split].
  - intros H12 H34 H56 H78 σ. split.
    + vm_compute. rewrite H12. vm_compute. rewrite H34. vm_compute. rewrite H56. reflexivity.
    + vm_compute. rewrite H12. vm_compute. rewrite H34. vm_compute. rewrite H56.
      vm_compute. rewrite H78. reflexivity.
  - intros T nm no [t a x cs] σ σ' d pre c post Hrun Hcs Hfresh. simpl in Hcs. subst cs.
    cbn [convert] in Hrun. unfold Dict_convert in Hrun. simpl in Hrun.
    apply bind_Ok_inv in Hrun as (σ3 & d3 & Hloop & [= <- <-]).
    rewrite for_each_app in Hloop.
    apply bind_Ok_inv in Hloop as (σ1 & d1 & Hpre & Hloop). simpl in Hloop.
    apply bind_Ok_inv in Hloop as (σ2 & d2 & Hc & Hpost).
    assert (d1 !! tag c = None) as Hd1.
    { rewrite (Dict_body_untouched _ _ _ _ _ _ _ _ _ Hpre Hfresh). apply lookup_empty. }
    apply Dict_body_stored in Hc as (y & Hy & ->); [|by right].
    exists σ1, d1, σ2, y. split; [done|]. split; [done|].
    eapply Dict_body_kept; [exact Hpost|]. apply lookup_insert_eq.
  - intros T nm no [t a x cs] σ σ' d pre c post Hrun Hcs Hfresh. simpl in Hcs. subst cs.
    cbn [convert] in Hrun. unfold Dict_convert in Hrun. simpl in Hrun.
    apply bind_Ok_inv in Hrun as (σ3 & d3 & Hloop & [= <- <-]).
    rewrite for_each_app in Hloop.
    apply bind_Ok_inv in Hloop as (σ1 & d1 & Hpre & Hloop). simpl in Hloop.
    apply bind_Ok_inv in Hloop as (σ2 & d2 & Hc & Hpost).
    apply Dict_body_stored in Hc as (y & Hy & ->); [|by left].
    exists σ1, d1, σ2, y. split; [done|]. split; [done|].
    rewrite (Dict_body_untouched _ _ _ _ _ _ _ _ _ Hpost Hfresh). apply lookup_insert_eq.
Qed.

(** *** The example of the module docstring *)

(** C2. [MyObject()] applied to the element [foo] returns the aggregate
    {bar: 'baz', b: ['qwe', 'asd'], c: ['y', 'z', None], num: 200}; the
    conversion names the attribute extractor 'bar'. *)
Theorem MyObject_foo :
  py_int (PyStr "200") = Some 200%Z →
  convert foo_xml MyObject ∅
  = ({[ 0 := "bar" ]},
     Ok (VObject {[ "bar" := VStr "baz";
                    "b" := VList [VStr "qwe"; VStr "asd"];
                    "c" := VList [VStr "y"; VStr "z"; VNone];
                    "num" := VInt 200 ]})).
Proof.
  intros H200. vm_compute. rewrite H200. reflexivity.
Qed.

(** *** Exceptions *)

Lemma convert_eq v self :
  convert v self =
    match self with
    | Object _ _ _text _overwrite attrs => Object_convert convert _text _overwrite attrs v
    | List _type _tag _ _ => List_convert convert _type _tag v
    | Many _type _name _ => Many_convert convert _type _name v
    | Dict _type _overwrite _ _ => Dict_convert convert _type _overwrite v
    | Attribute id _name _type _none => Attribute_convert id _name _type _none v
    | AttributeOf _attr _type _ _none => lift (AttributeOf_convert _attr _type _none v)
    | Int _ _none => lift (Int_convert _none v)
    | Float _ _none => lift (Float_convert _none v)
    | Complex _ _none => lift (Complex_convert _none v)
    | Str _strip _ _none => lift (Str_convert _strip _none v)
    | Unicode _strip _ _none => lift (Unicode_convert _strip _none v)
    | Bool _ _none => lift (Bool_convert _none v)
    | Element _ _ => ret (VElement v)
    | Value _value _ _ => ret _value
    end.
Proof. by destruct v. Qed.

Lemma invalid_literal_raises self v σ :
  invalid_literal self v → convert v self σ = (σ, Raise ValueError).
Proof.
  intros H. rewrite convert_eq.
  destruct H as [nm no v s Ht Hp | nm no v s Ht Hp | nm no v s Ht Hp]; unfold lift.
  - unfold Int_convert, int_. by rewrite Ht, Hp.
  - unfold Float_convert, float_. by rewrite Ht, Hp.
  - unfold Complex_convert, complex_. by rewrite Ht, Hp.
Qed.

(** A loop whose body raises at [c], after returning on every element before
    [c], raises the same exception. *)
Lemma for_each_Raise {A S} (body : S → A → M S) pre c post s σ σ1 s1 σ2 e :
  for_each body pre s σ = (σ1, Ok s1) →
  body s1 c σ1 = (σ2, Raise e) →
  for_each body (pre ++ c :: post) s σ = (σ2, Raise e).
Proof.
  intros Hpre Hc. rewrite for_each_app. rewrite (bind_Ok _ _ _ _ _ Hpre).
  simpl. by rewrite (bind_Raise _ _ _ _ _ Hc).
Qed.

(** C7. A numeric leaf ([Int], [Float], [Complex]) applied to a node whose
    text is not a literal of its kind raises [ValueError]; and whenever an
    enclosing [Object], [List], [Many] or [Dict] conversion, nested to any
    depth, comes to call such a leaf, the whole conversion raises that
    [ValueError] and returns no value. *)
Theorem ValueError_propagates (v : node) (self : schema) σ σ' :
  propagates v self σ σ' → convert v self σ = (σ', Raise ValueError).
Proof.
  induction 1 as
    [ v self σ Hleaf
    | v T tg nm no pre c post σ σ1 l σ2 Hcs Hpre Hsel _ IH
    | v T nm no pre c post σ σ1 l σ2 Hcs Hpre Hsel _ IH
    | v T ow nm no pre c post σ σ1 d σ2 Hcs Hpre Hsel _ IH
    | v nm no txt ow attrs st pre c post obj key val σ σ1 σ2 σ3 Hbind Hcs Hpre Hmap _ IH
    | v nm no txt ow attrs before key T nm' no' after st σ σ1 σ2 Hattrs Hpre Hpub Hgo _ IH ].
  - by apply invalid_literal_raises.
  - rewrite convert_eq. unfold List_convert. rewrite Hcs.
    eapply bind_Raise, for_each_Raise; [exact Hpre|].
    unfold List_body. rewrite Hsel. by eapply bind_Raise.
  - rewrite convert_eq. unfold Many_convert. rewrite Hcs.
    eapply bind_Raise, for_each_Raise; [exact Hpre|].
    unfold Many_body. rewrite Hsel. by eapply bind_Raise.
  - rewrite convert_eq. unfold Dict_convert. rewrite Hcs.
    eapply bind_Raise, for_each_Raise; [exact Hpre|].
    unfold Dict_body. rewrite Hsel. by eapply bind_Raise.
  - rewrite convert_eq. unfold Object_convert.
    rewrite (bind_Ok _ _ _ _ _ Hbind). rewrite Hcs.
    eapply bind_Raise, for_each_Raise; [exact Hpre|].
    unfold Object_scan. rewrite Hmap. by eapply bind_Raise.
  - rewrite convert_eq. unfold Object_convert. rewrite Hattrs.
    eapply bind_Raise, for_each_Raise; [exact Hpre|].
    destruct st as [obj mapping]. simpl in Hgo |- *. rewrite Hpub, Hgo.
    rewrite convert_eq in IH. by eapply bind_Raise.
Qed.

(** *** How conversions are built

    Every conversion is made of [lift], [bind], reading the name of an
    [Attribute] and the step that names one and reads it at once.  A property
    [Q] of computations that these preserve holds of [convert]. *)

Lemma node_children_ind (P : node → Prop) :
  (∀ t a x cs, (∀ c, c ∈ cs → P c) → P (Node t a x cs)) → ∀ v, P v.
Proof.
  intros H. fix IH 1. intros [t a x cs]. apply H.
  apply (proj1 (Forall_forall P cs)).
  induction cs as [|c cs IHcs]; constructor; [apply IH | exact IHcs].
Qed.

Section Built.

Variable Q : ∀ A, M A → Prop.
Variables fills reads : nat → Prop.

Hypothesis Q_ext : ∀ A (m m' : M A), (∀ σ, m σ = m' σ) → Q A m → Q A m'.
Hypothesis Q_lift : ∀ A (r : result A), Q A (lift r).
Hypothesis Q_bind : ∀ A B (P : A → Prop) (m : M A) (k : A → M B),
  Q A m → (∀ σ σ' a, m σ = (σ', Ok a) → P a) → (∀ a, P a → Q B (k a)) →
  Q B (bind m k).
Hypothesis Q_read : ∀ id nm ty no v,
  reads id → Q value (Attribute_convert id nm ty no v).
Hypothesis Q_field : ∀ id nm ty no key v,
  fills id → Q value (_ <- Attribute_fill id nm key ;; Attribute_convert id nm ty no v).

Local Abbreviation covered := (covered fills reads).
Local Abbreviation covered_field := (covered_field fills reads).
Local Abbreviation covered_mapping := (covered_mapping fills reads).

Lemma Q_ret A (a : A) : Q A (ret a).
Proof. exact (Q_lift A (Ok a)). Qed.

Lemma Q_bind' A B (m : M A) (k : A → M B) :
  Q A m → (∀ a, Q B (k a)) → Q B (bind m k).
Proof. intros Hm Hk. apply (Q_bind A B (λ _, True)); auto. Qed.

Lemma Q_for_each A S (P : S → Prop) (body : S → A → M S) l :
  (∀ s x, P s → x ∈ l → Q S (body s x)) →
  (∀ s x σ σ' s', P s → x ∈ l → body s x σ = (σ', Ok s') → P s') →
  ∀ s, P s → Q S (for_each body l s).
Proof.
  induction l as [|x l IH]; intros HQ HP s Hs; simpl.
  - apply Q_ret.
  - apply (Q_bind S S P).
    + apply HQ; [done | by left].
    + intros σ σ' s'. apply HP; [done | by left].
    + intros s' Hs'. apply IH; [| |done].
      * intros s0 x0 H0 Hin. apply HQ; [done | by right].
      * intros s0 x0 σ0 σ0' s0' H0 Hin Hb. eapply HP; [exact H0 | by right | exact Hb].
Qed.

Lemma Q_for_each' A S (body : S → A → M S) l s :
  (∀ s x, x ∈ l → Q S (body s x)) → Q S (for_each body l s).
Proof. intros H. apply (Q_for_each A S (λ _, True)); auto. Qed.

Section Calls.

Variable call : node → schema → M value.
Variable v : node.
Hypothesis Q_call : ∀ c T, c ∈ children v → covered T → Q value (call c T).

Lemma Q_List T _tag : covered T → Q value (List_convert call T _tag v).
Proof.
  intros HT. unfold List_convert. apply Q_bind'; [|intros; apply Q_ret].
  apply Q_for_each'. intros l c Hc. unfold List_body.
  destruct (_ || _); [|apply Q_ret].
  apply Q_bind'; [by apply Q_call | intros; apply Q_ret].
Qed.

Lemma Q_Many T _name : covered T → Q value (Many_convert call T _name v).
Proof.
  intros HT. unfold Many_convert. apply Q_bind'; [|intros; apply Q_ret].
  apply Q_for_each'. intros l c Hc. unfold Many_body.
  destruct (_ || _); [|apply Q_ret].
  apply Q_bind'; [by apply Q_call | intros; apply Q_ret].
Qed.

Lemma Q_Dict T _overwrite : covered T → Q value (Dict_convert call T _overwrite v).
Proof.
  intros HT. unfold Dict_convert. apply Q_bind'; [|intros; apply Q_ret].
  apply Q_for_each'. intros l c Hc. unfold Dict_body.
  destruct (_ || _); [|apply Q_ret].
  apply Q_bind'; [by apply Q_call | intros; apply Q_ret].
Qed.

Lemma Object_bind_covered _overwrite st key val σ σ' st' :
  covered_field val → covered_mapping st.2 →
  Object_bind call _overwrite v st (key, Some val) σ = (σ', Ok st') →
  covered_mapping st'.2.
Proof.
  destruct st as [obj mapping]. simpl. intros Hval Hmap Hrun.
  destruct (public key); [|by injection Hrun as _ <-].
  destruct (_ || _); [|by injection Hrun as _ <-].
  assert (Hreg : ∀ n σ0, ret (obj, <[n := (key, val)]> mapping) σ0 = (σ', Ok st') →
                 covered val → covered_mapping st'.2).
  { intros n σ0 [= _ <-] Hc t key' val' Hl. simpl in Hl.
    destruct (decide (n = t)) as [->|Hne].
    - rewrite lookup_insert_eq in Hl. by injection Hl as _ <-.
    - rewrite lookup_insert_ne in Hl by done. eauto. }
  assert (Hset : ∀ (m : M value) σ0,
    (x <- m ;; ret (<[key := x]> obj, mapping)) σ0 = (σ', Ok st') →
    covered_mapping st'.2).
  { intros m σ0 Hm. by apply bind_Ok_inv in Hm as (σ1 & x & _ & [= _ <-]). }
  destruct val; simpl in Hrun;
    try (destruct _name; (eapply Hreg; [exact Hrun | exact Hval])).
  - eapply Hset. exact Hrun.
  - apply bind_Ok_inv in Hrun as (σ1 & [] & _ & Hrun). eapply Hset. exact Hrun.
Qed.

Lemma Q_Object_bind_step _overwrite st key val :
  covered_field val →
  Q _ (Object_bind call _overwrite v st (key, Some val)).
Proof.
  destruct st as [obj mapping]. simpl. intros Hval.
  destruct (public key); [|apply Q_ret].
  destruct (_ || _); [|apply Q_ret].
  destruct val; simpl; try (destruct _name; apply Q_ret).
  - apply Q_bind'; [|intros; apply Q_ret]. by apply Q_Many.
  - eapply Q_ext; [intros σ; apply bind_assoc|].
    apply Q_bind'; [|intros; apply Q_ret]. by apply Q_field.
Qed.

Lemma Q_Object_bind _overwrite fields :
  (∀ key val, (key, Some val) ∈ fields → covered_field val) →
  ∀ st, Q _ (for_each (Object_bind call _overwrite v) fields st).
Proof.
  intros Hfields st. apply Q_for_each'. intros st0 [key [val|]] Hin.
  - apply Q_Object_bind_step. eauto.
  - destruct st0 as [obj mapping]. simpl. destruct (public key); apply Q_ret.
Qed.

Lemma Object_bind_loop_covered _overwrite fields st σ σ' st' :
  (∀ key val, (key, Some val) ∈ fields → covered_field val) →
  covered_mapping st.2 →
  for_each (Object_bind call _overwrite v) fields st σ = (σ', Ok st') →
  covered_mapping st'.2.
Proof.
  intros Hfields Hst Hrun.
  eapply (for_each_inv (λ st, covered_mapping st.2)); [|exact Hst|exact Hrun].
  intros st0 [key [val|]] σa σb st1 Hst0 Hin Hstep.
  - eapply Object_bind_covered; eauto.
  - destruct st0 as [obj mapping]. simpl in Hstep.
    destruct (public key); by injection Hstep as _ <-.
Qed.

Lemma Q_Object_scan mapping obj :
  covered_mapping mapping →
  Q _ (for_each (Object_scan call mapping) (children v) obj).
Proof.
  intros Hmap. apply Q_for_each'. intros o c Hc. unfold Object_scan.
  destruct (mapping !! tag c) as [[key val]|] eqn:Hl; [|apply Q_ret].
  apply Q_bind'; [|intros; apply Q_ret]. apply Q_call; eauto.
Qed.

Lemma Q_Object_text _text obj : Q _ (Object_text _text v obj).
Proof.
  unfold Object_text. destruct _text as [f|]; [|apply Q_ret].
  destruct (text v); [|apply Q_ret].
  apply Q_bind'; [apply Q_lift | intros; apply Q_ret].
Qed.

Lemma Q_Object_from _text _overwrite fields st :
  (∀ key val, (key, Some val) ∈ fields → covered_field val) →
  covered_mapping st.2 →
  Q _ (Object_from call _text _overwrite v fields st).
Proof.
  intros Hfields Hst. unfold Object_from.
  apply (Q_bind _ _ (λ st, covered_mapping st.2)).
  - by apply Q_Object_bind.
  - intros σ σ' st' Hrun.
    eapply Object_bind_loop_covered; [exact Hfields|exact Hst|exact Hrun].
  - intros st' Hst'. apply Q_bind'; [by apply Q_Object_scan|].
    intros obj. apply Q_bind'; [apply Q_Object_text | intros; apply Q_ret].
Qed.

Lemma Q_Object _text _overwrite attrs :
  (∀ key val, (key, Some val) ∈ attrs → covered_field val) →
  Q _ (Object_convert call _text _overwrite attrs v).
Proof.
  intros Hattrs. apply (Q_Object_from _text _overwrite attrs (∅, ∅)); [done|].
  intros t key val Hl. simpl in Hl. by rewrite lookup_empty in Hl.
Qed.

End Calls.

Lemma covered_fields _name _none _text _overwrite attrs key val :
  covered (Object _name _none _text _overwrite attrs) →
  (key, Some val) ∈ attrs → covered_field val.
Proof.
  intros [Hf Hr] Hin.
  assert (Hfilled : ∀ i, i ∈ match val with
                             | Attribute id _ _ _ => [id]
                             | _ => filled_ids val
                             end → fills i).
  { intros i Hi. apply Hf. simpl. apply list_elem_of_bind.
    exists (key, Some val). split; [exact Hi | exact Hin]. }
  assert (Hread : ∀ i, i ∈ match val with
                           | Attribute id _ _ _ => []
                           | _ => read_ids val
                           end → reads i).
  { intros i Hi. apply Hr. simpl. apply list_elem_of_bind.
    exists (key, Some val). split; [exact Hi | exact Hin]. }
  destruct val; try (split; [exact Hfilled | exact Hread]).
  simpl. apply Hfilled. by left.
Qed.

(** The conversion of any covered schema has the property. *)
Lemma Q_convert v : ∀ self, covered self → Q value (convert v self).
Proof.
  induction v as [t a x cs IH] using node_children_ind. intros self Hc.
  rewrite convert_eq. destruct self; try apply Q_lift.
  - apply Q_Object; [by auto|]. intros key val Hin.
    eapply covered_fields; [exact Hc | exact Hin].
  - apply Q_List; [by auto|]. exact Hc.
  - apply Q_Many; [by auto|]. exact Hc.
  - apply Q_Dict; [by auto|]. exact Hc.
  - apply Q_read. apply Hc. simpl. by left.
Qed.

End Built.

(** *** Conversions only fill in names *)

Lemma ext_refl F σ : ext F σ σ.
Proof. intros i. by left. Qed.

Lemma ext_trans F σ σ1 σ2 : ext F σ σ1 → ext F σ1 σ2 → ext F σ σ2.
Proof.
  intros H1 H2 i. destruct (H2 i) as [E2|(N2 & S2 & HF)].
  - destruct (H1 i) as [E1|(N1 & S1 & HF)].
    + left. by rewrite E2.
    + right. by rewrite E2.
  - right. split; [|done]. destruct (H1 i) as [E1|(N1 & S1 & _)].
    + by rewrite <- E1.
    + done.
Qed.

Lemma ext_subseteq F σ σ1 : ext F σ σ1 → σ ⊆ σ1.
Proof.
  intros H. apply map_subseteq_spec. intros i x Hi.
  destruct (H i) as [E|(N & _)]; [by rewrite E | congruence].
Qed.

Lemma ext_outside F σ σ1 i : ext F σ σ1 → ¬ F i → σ1 !! i = σ !! i.
Proof. intros H Hi. by destruct (H i) as [E|(_ & _ & ?)]. Qed.

Lemma frames_pointwise F A (m m' : M A) :
  (∀ σ, m σ = m' σ) → frames F m → frames F m'.
Proof. intros E H σ. rewrite <- E. apply H. Qed.

Lemma frames_lift F A (r : result A) : frames F (lift r).
Proof. intros σ. apply ext_refl. Qed.

Lemma frames_bind F A B (P : A → Prop) (m : M A) (k : A → M B) :
  frames F m → (∀ σ σ' a, m σ = (σ', Ok a) → P a) → (∀ a, P a → frames F (k a)) →
  frames F (bind m k).
Proof.
  intros Hm HP Hk σ. unfold bind. specialize (Hm σ).
  destruct (m σ) as [σ1 [a|e]] eqn:E; simpl in Hm; [|done].
  eapply ext_trans; [exact Hm|]. apply Hk. eapply HP. exact E.
Qed.

Lemma frames_read F id nm ty no v : frames F (Attribute_convert id nm ty no v).
Proof. intros σ. apply ext_refl. Qed.

Lemma frames_field F id nm ty no key v :
  F id → frames F (_ <- Attribute_fill id nm key ;; Attribute_convert id nm ty no v).
Proof.
  intros HF σ. unfold bind, Attribute_fill, Attribute_convert.
  destruct (Attribute_name id nm σ) as [a|] eqn:E; simpl; [apply ext_refl|].
  intros i. destruct (decide (id = i)) as [<-|Hne].
  - right. destruct nm; [done|]. simpl in E. by rewrite lookup_insert_eq.
  - left. by rewrite lookup_insert_ne.
Qed.

(** A conversion fills in names of instances bound to attributes of objects
    of its schema, and changes nothing else. *)
Lemma frames_convert F v self :
  (∀ i, i ∈ filled_ids self → F i) → frames F (convert v self).
Proof.
  intros HF.
  apply (Q_convert (λ A, @frames F A) F (λ _, True)).
  - apply frames_pointwise.
  - apply frames_lift.
  - apply frames_bind.
  - intros. apply frames_read.
  - intros. by apply frames_field.
  - by split.
Qed.

Lemma covered_anything (val : schema) : covered (λ _, True) (λ _, True) val.
Proof. by split. Qed.

Lemma covered_field_anything (val : schema) :
  covered_field (λ _, True) (λ _, True) val.
Proof. destruct val; simpl; try done; apply covered_anything. Qed.

Lemma frames_Object_bind F _overwrite v fields st :
  (∀ key val, (key, Some val) ∈ fields → covered_field F (λ _, True) val) →
  frames F (for_each (Object_bind convert _overwrite v) fields st).
Proof.
  intros Hfields.
  apply (Q_Object_bind (λ A, @frames F A) F (λ _, True)).
  - apply frames_pointwise.
  - apply frames_lift.
  - apply frames_bind.
  - intros. by apply frames_field.
  - intros c T _ [HT _]. by apply frames_convert.
  - exact Hfields.
Qed.


(** *** Converting again *)

Section Tame.

Variables F R : nat → Prop.
Hypothesis F_R_disjoint : ∀ i, F i → R i → False.

Lemma tame_pointwise A (m m' : M A) :
  (∀ σ, m σ = m' σ) → tame F R m → tame F R m'.
Proof.
  intros E [H1 H2]. split; [by eapply frames_pointwise|].
  intros σ σ'. rewrite <- !E. apply H2.
Qed.

Lemma tame_lift A (r : result A) : tame F R (lift r).
Proof. split; [apply frames_lift | by intros σ σ' _ _]. Qed.

Lemma tame_bind A B (P : A → Prop) (m : M A) (k : A → M B) :
  tame F R m → (∀ σ σ' a, m σ = (σ', Ok a) → P a) → (∀ a, P a → tame F R (k a)) →
  tame F R (bind m k).
Proof.
  intros [Hm1 Hm2] HP Hk. split.
  - eapply frames_bind; [exact Hm1 | exact HP | intros a Ha; by apply Hk].
  - intros σ σ'. unfold bind. specialize (Hm2 σ σ').
    destruct (m σ) as [σ1 [a|e]] eqn:E; simpl in *.
    + destruct (Hk a (HP _ _ _ E)) as [Hk1 Hk2].
      specialize (Hk1 σ1). specialize (Hk2 σ1 σ').
      destruct (k a σ1) as [σ2 r] eqn:E2; simpl in *.
      intros Hsub Hagree. rewrite Hm2.
      * by apply Hk2.
      * etrans; [by eapply ext_subseteq | done].
      * intros i Hi. rewrite (Hagree i Hi). eapply ext_outside; [exact Hk1|].
        intros HFi. by eapply F_R_disjoint.
    + intros Hsub Hagree. by rewrite Hm2.
Qed.

Lemma tame_read id nm ty no v : R id → tame F R (Attribute_convert id nm ty no v).
Proof.
  intros HR. split; [apply frames_read|].
  intros σ σ' _ Hagree. unfold Attribute_convert in *. simpl in *.
  destruct nm; simpl; [done|]. by rewrite (Hagree id HR).
Qed.

Lemma tame_field id nm ty no key v :
  F id → tame F R (_ <- Attribute_fill id nm key ;; Attribute_convert id nm ty no v).
Proof.
  intros HF. split; [by apply frames_field|].
  intros σ σ'. unfold bind, Attribute_fill, Attribute_convert.
  destruct nm as [a|]; simpl; [done|].
  destruct (σ !! id) as [a|] eqn:E; simpl.
  - intros Hsub _.
    assert (σ' !! id = Some a) as E' by (eapply lookup_weaken; [exact E | exact Hsub]).
    simpl. by rewrite ?E', ?E.
  - intros Hsub _.
    assert (σ' !! id = Some key) as E'.
    { eapply lookup_weaken; [|exact Hsub]. apply lookup_insert_eq. }
    simpl. by rewrite ?E', ?E, ?lookup_insert_eq.
Qed.

(** A conversion that names the instances in [F] only and reads in place
    those in [R] only can be run again: the store stays, the result too. *)
Lemma tame_convert v self : covered F R self → tame F R (convert v self).
Proof.
  apply (Q_convert (λ A, @tame F R A) F R).
  - apply tame_pointwise.
  - apply tame_lift.
  - apply tame_bind.
  - apply tame_read.
  - apply tame_field.
Qed.

End Tame.

(** *** The default of [Attribute._name] *)







(** *** Converting again, with lxml *)

Section Settled.

Hypothesis etree_lxml : etree = lxml.








End Settled.



(** ** Further properties of the collections *)

Lemma map_M_length {A B} (f : A → M B) l σ σ' ys :
  map_M f l σ = (σ', Ok ys) → List.length ys = List.length l.
Proof.
  revert σ σ' ys. induction l as [|x l IH]; intros σ σ' ys Hrun; simpl in Hrun.
  - by injection Hrun as _ <-.
  - apply bind_Ok_inv in Hrun as (σ1 & y & _ & Hrun).
    apply bind_Ok_inv in Hrun as (σ2 & ys' & Hrest & [= _ <-]).
    simpl. f_equal. eauto.
Qed.

Lemma selected_tag t c :
  is_none t || bool_decide (t = Some (tag c)) = bool_decide (selected t c).
Proof.
  unfold selected. destruct t as [X|]; cbn [is_none orb].
  - apply bool_decide_ext. split; [by right | by intros [?|?]].
  - symmetry. apply bool_decide_eq_true_2. by left.
Qed.

Lemma selected_name t c :
  is_none t || bool_decide (Some (tag c) = t) = bool_decide (selected t c).
Proof.
  unfold selected. destruct t as [X|]; cbn [is_none orb].
  - apply bool_decide_ext. split; [by intros [= <-]; right | by intros [?|[= ->]]].
  - symmetry. apply bool_decide_eq_true_2. by left.
Qed.

Lemma filter_selected_None (cs : list node) : filter (selected None) cs = cs.
Proof.
  induction cs as [|c cs IH]; [done|].
  rewrite filter_cons_True by (by left). by rewrite IH.
Qed.

Lemma List_convert_selected call (T : schema) t v σ :
  List_convert call T t v σ
  = (l <- map_M (λ c, call c T) (filter (selected t) (children v)) ;;
     ret (VList l)) σ.
Proof.
  unfold List_convert. unfold bind at 1.
  rewrite (for_each_ext (List_body _ _ _)
    (λ acc x, if bool_decide (selected t x)
              then y <- call x T ;; ret (acc ++ [y]) else ret acc)).
  2:{ intros. unfold List_body. by rewrite selected_tag. }
  rewrite (for_each_append (selected t)). simpl.
  unfold bind, ret. by destruct (map_M _ _ σ) as [σ1 [l|e]].
Qed.

Lemma Many_convert_selected call (T : schema) t v σ :
  Many_convert call T t v σ
  = (l <- map_M (λ c, call c T) (filter (selected t) (children v)) ;;
     ret (VList l)) σ.
Proof.
  unfold Many_convert. unfold bind at 1.
  rewrite (for_each_ext (Many_body _ _ _)
    (λ acc x, if bool_decide (selected t x)
              then y <- call x T ;; ret (acc ++ [y]) else ret acc)).
  2:{ intros. unfold Many_body. by rewrite selected_name. }
  rewrite (for_each_append (selected t)). simpl.
  unfold bind, ret. by destruct (map_M _ _ σ) as [σ1 [l|e]].
Qed.

(** X1. A [List], with or without a tag filter, converts exactly the
    selected children, in document order, stopping at the first exception;
    a [Many] whose name is the filter does the same, also when the name is
    [None].  When the [List] returns, the result is a list (never [None],
    also for a node without children) with one element for each selected
    child; without a filter, one for each child. *)
Theorem List_one_per_selected_child (T : schema) (_tag _name : option string)
    (_none _none' : bool) (v : node) σ :
  convert v (List T _tag _name _none) σ
  = (l <- map_M (λ c, convert c T) (filter (selected _tag) (children v)) ;;
     ret (VList l)) σ
  ∧ convert v (Many T _tag _none') σ = convert v (List T _tag _name _none) σ
  ∧ (∀ σ' r, convert v (List T _tag _name _none) σ = (σ', Ok r) →
       ∃ l, r = VList l
            ∧ List.length l = List.length (filter (selected _tag) (children v))
            ∧ (_tag = None → List.length l = List.length (children v))).
Proof.
  rewrite !convert_eq, Many_convert_selected, List_convert_selected.
  split; [done|]. split; [done|].
  intros σ' r Hrun. apply bind_Ok_inv in Hrun as (σ1 & l & Hl & [= _ <-]).
  exists l. split; [done|]. apply map_M_length in Hl. split; [done|].
  intros ->. by rewrite Hl, filter_selected_None.
Qed.
Lemma Dict_loop_dom call T ow cs : ∀ d σ σ' d',
  for_each (Dict_body call T ow) cs d σ = (σ', Ok d') →
  dom d' = dom d ∪ list_to_set (tag <$> cs).
Proof.
  induction cs as [|c cs IH]; intros d σ σ' d' Hrun; simpl in Hrun.
  - injection Hrun as _ <-. set_solver.
  - apply bind_Ok_inv in Hrun as (σ1 & d1 & Hc & Hrest).
    rewrite (IH _ _ _ _ Hrest). rewrite fmap_cons, list_to_set_cons.
    unfold Dict_body in Hc. destruct ow; simpl in Hc.
    + apply bind_Ok_inv in Hc as (σ2 & x & _ & [= _ <-]).
      rewrite dom_insert_L. set_solver.
    + case_bool_decide as Hd; simpl in Hc.
      * injection Hc as _ <-. apply elem_of_dom in Hd. set_solver.
      * apply bind_Ok_inv in Hc as (σ2 & x & _ & [= _ <-]).
        rewrite dom_insert_L. set_solver.
Qed.

(** X2. When a [Dict] returns, with or without [overwrite], the keys of the
    result are exactly the tags of the children: one key for each tag that
    occurs, none for a node without children. *)
Theorem Dict_keys_are_tags (T : schema) (_overwrite : bool) (_name : option string)
    (_none : bool) (v : node) σ σ' r :
  convert v (Dict T _overwrite _name _none) σ = (σ', Ok r) →
  ∃ d, r = VDict d ∧ dom d = list_to_set (tag <$> children v).
Proof.
  rewrite convert_eq. unfold Dict_convert. intros Hrun.
  apply bind_Ok_inv in Hrun as (σ1 & d & Hloop & [= _ <-]).
  exists d. split; [done|]. rewrite (Dict_loop_dom _ _ _ _ _ _ _ _ Hloop).
  rewrite dom_empty_L. set_solver.
Qed.

Lemma Dict_loop_first call T ow cs : ∀ d σ,
  for_each (Dict_body call T false) cs d σ
  = for_each (Dict_body call T ow) (first_of_each_tag (dom d) cs) d σ.
Proof.
  induction cs as [|c cs IH]; intros d σ; [done|].
  simpl. destruct (decide (tag c ∈ dom d)) as [Hin|Hout].
  - unfold Dict_body at 1. simpl.
    rewrite bool_decide_true by (by apply elem_of_dom).
    simpl. unfold bind at 1, ret at 1. apply IH.
  - simpl. unfold Dict_body at 1 3. simpl.
    rewrite bool_decide_false by (by rewrite <- elem_of_dom).
    rewrite orb_true_r. simpl. unfold bind at 1 3.
    unfold bind. destruct (call c T σ) as [σ1 [x|e]]; [|done].
    unfold ret at 1 2. rewrite IH. by rewrite dom_insert_L.
Qed.

(** X3. Without [overwrite], a [Dict] converts the first child of each tag
    and nothing else: on a node [v] it does (store, result and exception
    alike) what any [Dict] of the same element type does on [v] with the later
    children of a repeated tag removed.  So a later duplicate is never handed
    to the element type, and an invalid value in it raises nothing. *)
Theorem Dict_converts_first_of_each_tag (T : schema) (_overwrite : bool)
    (_name _name' : option string) (_none _none' : bool) (v v' : node) σ :
  children v' = first_of_each_tag ∅ (children v) →
  convert v (Dict T false _name _none) σ
  = convert v' (Dict T _overwrite _name' _none') σ.
Proof.
  intros Hcs. rewrite !convert_eq. unfold Dict_convert. rewrite Hcs.
  unfold bind. rewrite (Dict_loop_first _ _ _overwrite). by rewrite dom_empty_L.
Qed.

Lemma Dict_loop_overwrite call T cs : ∀ d σ,
  for_each (Dict_body call T true) cs d σ
  = (l <- map_M (λ c, call c T) cs ;;
     ret (foldl (λ d p, <[p.1 := p.2]> d) d (zip (tag <$> cs) l))) σ.
Proof.
  induction cs as [|c cs IH]; intros d σ; [done|].
  simpl. unfold Dict_body at 1. simpl. unfold bind at 1 2 3 4.
  destruct (call c T σ) as [σ1 [x|e]]; [|done].
  unfold ret at 1. rewrite IH. unfold bind.
  by destruct (map_M _ cs σ1) as [σ2 [l|e]].
Qed.

Lemma foldl_insert_list_to_map (l : list (string * value)) :
  foldl (λ (d : gmap string value) p, <[p.1 := p.2]> d) ∅ l = list_to_map (reverse l).
Proof.
  induction l as [|p l IH] using rev_ind; [done|].
  rewrite foldl_app, reverse_app. simpl. by rewrite IH.
Qed.

(** X4. With [overwrite], a [Dict] converts every child, in document order,
    as a [List] without filter does (same store, same exception), and returns
    the dictionary of the pairs (tag, value) in which a later pair replaces an
    earlier one: [dict(zip(tags, values))]. *)
Theorem Dict_overwrite_is_dict_of_List (T : schema) (_name _name' : option string)
    (_none _none' : bool) (v : node) σ :
  convert v (Dict T true _name _none) σ
  = (r <- convert v (List T None _name' _none') ;;
     match r with
     | VList l => ret (VDict (list_to_map (reverse (zip (tag <$> children v) l))))
     | _ => ret r
     end) σ.
Proof.
  unfold bind at 1. rewrite !convert_eq, List_convert_selected, filter_selected_None.
  unfold Dict_convert. unfold bind at 1. rewrite Dict_loop_overwrite.
  unfold bind, ret. destruct (map_M _ _ σ) as [σ1 [l|e]]; [|done].
  by rewrite foldl_insert_list_to_map.
Qed.

(** ** Further properties of the leaves and of the store *)

(** X5. With the none-policy disabled, a node without text makes [Int] and
    [Float] raise [TypeError], and [Complex], [Str] and [Bool] raise
    [AttributeError]; [Unicode] alone returns, with the text 'None'. *)
Theorem absent_text_without_none_policy (_name : option string) (_strip : bool)
    (v : node) σ :
  text v = None →
  convert v (Int _name false) σ = (σ, Raise TypeError)
  ∧ convert v (Float _name false) σ = (σ, Raise TypeError)
  ∧ convert v (Complex _name false) σ = (σ, Raise AttributeError)
  ∧ convert v (Str _strip _name false) σ = (σ, Raise AttributeError)
  ∧ convert v (Bool _name false) σ = (σ, Raise AttributeError)
  ∧ convert v (Unicode _strip _name false) σ = (σ, Ok (VUnicode (Py.codes "None"))).
Proof.
  intros Htext. rewrite !convert_eq. unfold lift.
  unfold Int_convert, Float_convert, Complex_convert, Str_convert, Bool_convert,
    Unicode_convert. rewrite Htext. simpl. repeat split. by destruct _strip.
Qed.

(** X6. A conversion only ever adds names to the store: a name that is set
    stays, and the [_name] of an [Attribute] instance that is not bound to an
    attribute of an [Object] of the schema is left as it was.  A schema
    without such an instance is converted without any change of state. *)
Theorem convert_only_names_fields (v : node) (self : schema) σ :
  σ ⊆ (convert v self σ).1
  ∧ (∀ i, i ∉ filled_ids self → (convert v self σ).1 !! i = σ !! i)
  ∧ (filled_ids self = [] → (convert v self σ).1 = σ).
Proof.
  pose proof (frames_convert (λ i, i ∈ filled_ids self) v self (λ i Hi, Hi) σ) as Hext.
  split; [by eapply ext_subseteq|]. split.
  - intros i Hi. by eapply ext_outside.
  - intros Hnone. apply map_eq. intros i. eapply ext_outside; [exact Hext|].
    rewrite Hnone. apply not_elem_of_nil.
Qed.

(** X7. Take a schema in which no [Attribute] instance is both bound to an
    attribute of an [Object] and used elsewhere.  Whatever a conversion did,
    return or raise, converting the same node again in the store it left
    changes nothing and does the same. *)
Theorem convert_again (v : node) (self : schema) σ σ1 r :
  (∀ i, i ∈ filled_ids self → i ∈ read_ids self → False) →
  convert v self σ = (σ1, r) →
  convert v self σ1 = (σ1, r).
Proof.
  intros Hdisj Hrun.
  destruct (tame_convert (λ i, i ∈ filled_ids self) (λ i, i ∈ read_ids self)
              Hdisj v self ltac:(by split)) as [_ Hreplay].
  specialize (Hreplay σ σ1). rewrite Hrun in Hreplay. by apply Hreplay.
Qed.

(** ** Further properties of objects *)

Lemma NoDup_keys_agree {A} (l : list (string * A)) key x y :
  NoDup l.*1 → (key, x) ∈ l → (key, y) ∈ l → x = y.
Proof.
  induction l as [|[k z] l IH]; intros Hnd Hx Hy.
  - by apply elem_of_nil in Hx.
  - rewrite fmap_cons in Hnd. apply NoDup_cons in Hnd as [Hk Hnd]. simpl in Hk.
    apply elem_of_cons in Hx as [Hx|Hx]; apply elem_of_cons in Hy as [Hy|Hy].
    + congruence.
    + injection Hx as -> ->. destruct Hk. apply list_elem_of_fmap. by exists (k, y).
    + injection Hy as -> ->. destruct Hk. apply list_elem_of_fmap. by exists (k, x).
    + by apply IH.
Qed.

(** What one step of the first loop does to the aggregate and to the match
    table. *)
Lemma Object_bind_step call _overwrite v st key val σ σ' st' :
  Object_bind call _overwrite v st (key, val) σ = (σ', Ok st') →
  st' = st
  ∨ (∃ val' x, val = Some val' ∧ public key = true ∧ immediate val' = true
               ∧ st' = (<[key := x]> st.1, st.2))
  ∨ (∃ val', val = Some val' ∧ public key = true ∧ immediate val' = false
             ∧ st' = (st.1, <[match_name key val' := (key, val')]> st.2)).
Proof.
  destruct st as [obj mapping]. simpl. intros Hrun.
  destruct (public key); [|injection Hrun as _ <-; by left].
  destruct val as [val|]; [|injection Hrun as _ <-; by left].
  destruct (_ || _); [|injection Hrun as _ <-; by left].
  destruct val; simpl in Hrun;
    try (right; right; eexists; split; [done|]; split; [done|]; split; [done|];
         unfold match_name; simpl; destruct _name; by injection Hrun as _ <-).
  - apply bind_Ok_inv in Hrun as (σ1 & x & _ & [= _ <-]).
    right; left. by eexists _, x.
  - apply bind_Ok_inv in Hrun as (σ1 & [] & _ & Hrun).
    apply bind_Ok_inv in Hrun as (σ2 & x & _ & [= _ <-]).
    right; left. by eexists _, x.
Qed.

(** After the first loop over [fields]: an attribute of the aggregate that
    was not there before is the name of an immediate field, and an entry of
    the match table that was not there before registers a deferred field under
    its match name. *)
Lemma Object_bind_loop call _overwrite v fields st σ σ' st' :
  for_each (Object_bind call _overwrite v) fields st σ = (σ', Ok st') →
  (∀ k, is_Some (st'.1 !! k) →
        is_Some (st.1 !! k)
        ∨ ∃ val, (k, Some val) ∈ fields ∧ public k = true ∧ immediate val = true)
  ∧ (∀ t key val, st'.2 !! t = Some (key, val) →
        st.2 !! t = Some (key, val)
        ∨ ((key, Some val) ∈ fields ∧ public key = true ∧ immediate val = false
           ∧ t = match_name key val)).
Proof.
  revert st σ. induction fields as [|[key val] fields IH]; intros st σ Hrun;
    simpl in Hrun.
  - injection Hrun as _ <-. split; intros; by left.
  - apply bind_Ok_inv in Hrun as (σ1 & st1 & Hstep & Hrest).
    destruct (IH _ _ Hrest) as [IH1 IH2].
    apply Object_bind_step in Hstep
      as [->|[(val' & x & -> & Hpub & Himm & ->)|(val' & -> & Hpub & Himm & ->)]].
    + split.
      * intros k Hk. destruct (IH1 k Hk) as [?|(w & ? & ? & ?)]; [by left|].
        right. exists w. split; [by right|done].
      * intros t k w Hl. destruct (IH2 t k w Hl) as [?|(? & ? & ? & ?)]; [by left|].
        right. split; [by right|done].
    + simpl in *. split.
      * intros k Hk. destruct (IH1 k Hk) as [Hk1|(w & ? & ? & ?)].
        -- destruct (decide (key = k)) as [<-|Hne].
           ++ right. exists val'. split; [by left|done].
           ++ left. by rewrite lookup_insert_ne in Hk1.
        -- right. exists w. split; [by right|done].
      * intros t k w Hl. destruct (IH2 t k w Hl) as [?|(? & ? & ? & ?)]; [by left|].
        right. split; [by right|done].
    + simpl in *. split.
      * intros k Hk. destruct (IH1 k Hk) as [?|(w & ? & ? & ?)]; [by left|].
        right. exists w. split; [by right|done].
      * intros t k w Hl. destruct (IH2 t k w Hl) as [Hl1|(? & ? & ? & ?)].
        -- destruct (decide (match_name key val' = t)) as [<-|Hne].
           ++ rewrite lookup_insert_eq in Hl1. injection Hl1 as <- <-.
              right. split; [by left|done].
           ++ left. by rewrite lookup_insert_ne in Hl1.
        -- right. split; [by right|done].
Qed.

Lemma Object_text_other _text v obj σ σ' obj' k :
  Object_text _text v obj σ = (σ', Ok obj') → k ≠ "_text" → obj' !! k = obj !! k.
Proof.
  unfold Object_text. intros Hrun Hk. destruct _text as [f|].
  - destruct (text v) as [s|].
    + apply bind_Ok_inv in Hrun as (σ1 & x & _ & [= _ <-]). by rewrite lookup_insert_ne.
    + injection Hrun as _ <-. by rewrite lookup_insert_ne.
  - by injection Hrun as _ <-.
Qed.

Lemma public_not_text key : public key = true → key ≠ "_text".
Proof. by intros Hpub ->. Qed.

(** X8. A deferred field (any field that is not an [Attribute] or a [Many])
    none of whose children carries its match name is missing from the
    aggregate: the key is absent, not bound to [None]. *)
Theorem Object_field_without_child (_name : option string) (_none : bool)
    (_text : option (pystr → result value)) (_overwrite : bool)
    (attrs : list (string * option schema)) (key : string) (val : schema)
    (v : node) σ σ' obj :
  NoDup attrs.*1 →
  (key, Some val) ∈ attrs → public key = true → immediate val = false →
  (∀ c, c ∈ children v → tag c ≠ match_name key val) →
  convert v (Object _name _none _text _overwrite attrs) σ = (σ', Ok (VObject obj)) →
  obj !! key = None.
Proof.
  intros Hnd Hin Hpub Himm Hnochild Hrun.
  rewrite convert_eq in Hrun. unfold Object_convert in Hrun.
  apply bind_Ok_inv in Hrun as (σ1 & st & Hbind & Hrun).
  apply bind_Ok_inv in Hrun as (σ2 & obj1 & Hscan & Hrun).
  apply bind_Ok_inv in Hrun as (σ3 & obj2 & Htext & [= _ <-]).
  destruct (Object_bind_loop _ _ _ _ _ _ _ _ Hbind) as [Hobj Hmap].
  rewrite (Object_text_other _ _ _ _ _ _ _ Htext (public_not_text _ Hpub)).
  rewrite (Object_scan_untouched _ _ _ key _ _ _ _ Hscan).
  - destruct (st.1 !! key) eqn:E; [|done].
    destruct (Hobj key) as [[? Hk]|(w & Hw & _ & Hwi)].
    + by rewrite E.
    + simpl in Hk. by rewrite lookup_empty in Hk.
    + assert (Some val = Some w) as [= ->] by (eapply NoDup_keys_agree; eauto).
      congruence.
  - intros c key' val' Hc Hl ->.
    destruct (Hmap _ _ _ Hl) as [Hl0|(Hw & _ & _ & Ht)].
    + simpl in Hl0. by rewrite lookup_empty in Hl0.
    + assert (Some val' = Some val) as [= ->] by (eapply NoDup_keys_agree; eauto).
      by apply (Hnochild c Hc).
Qed.

Lemma Object_bind_loop_obj_kept call _overwrite v fields k : ∀ st σ σ' st',
  for_each (Object_bind call _overwrite v) fields st σ = (σ', Ok st') →
  k ∉ fields.*1 → st'.1 !! k = st.1 !! k.
Proof.
  induction fields as [|[key val] fields IH]; intros st σ σ' st' Hrun Hk;
    simpl in Hrun.
  - by injection Hrun as _ <-.
  - apply bind_Ok_inv in Hrun as (σ1 & st1 & Hstep & Hrest).
    rewrite fmap_cons, not_elem_of_cons in Hk. destruct Hk as [Hne Hk]. simpl in Hne.
    rewrite (IH _ _ _ _ Hrest Hk).
    apply Object_bind_step in Hstep
      as [->|[(val' & x & -> & _ & _ & ->)|(val' & -> & _ & _ & ->)]]; simpl.
    + done.
    + by rewrite lookup_insert_ne.
    + done.
Qed.

Lemma Object_bind_loop_entry_kept call _overwrite v fields t : ∀ st σ σ' st',
  for_each (Object_bind call _overwrite v) fields st σ = (σ', Ok st') →
  (∀ key val, (key, Some val) ∈ fields → immediate val = false →
              match_name key val ≠ t) →
  st'.2 !! t = st.2 !! t.
Proof.
  induction fields as [|[key val] fields IH]; intros st σ σ' st' Hrun Hother;
    simpl in Hrun.
  - by injection Hrun as _ <-.
  - apply bind_Ok_inv in Hrun as (σ1 & st1 & Hstep & Hrest).
    rewrite (IH _ _ _ _ Hrest) by (intros ?? Hin; apply Hother; by right).
    apply Object_bind_step in Hstep
      as [->|[(val' & x & -> & _ & _ & ->)|(val' & -> & _ & Himm & ->)]]; simpl.
    + done.
    + done.
    + rewrite lookup_insert_ne; [done|]. apply Hother; [by left|done].
Qed.

(** A conversion of an [Object] that returns, cut at one of its attributes. *)
Lemma Object_run_split (_name : option string) (_none : bool)
    (_text : option (pystr → result value)) (_overwrite : bool)
    (before after : list (string * option schema)) key val v σ σ' obj :
  NoDup ((before ++ (key, Some val) :: after).*1) →
  public key = true →
  _overwrite = true ∨ key ∉ _Object_methods →
  convert v (Object _name _none _text _overwrite (before ++ (key, Some val) :: after)) σ
    = (σ', Ok (VObject obj)) →
  ∃ σa sta σb stb σc stc σd obj1,
    for_each (Object_bind convert _overwrite v) before (∅, ∅) σ = (σa, Ok sta)
    ∧ _overwrite || negb (hasattr sta.1 key) = true
    ∧ Object_bind convert _overwrite v sta (key, Some val) σa = (σb, Ok stb)
    ∧ for_each (Object_bind convert _overwrite v) after stb σb = (σc, Ok stc)
    ∧ for_each (Object_scan convert stc.2) (children v) stc.1 σc = (σd, Ok obj1)
    ∧ Object_text _text v obj1 σd = (σ', Ok obj)
    ∧ (key ∉ before.*1) ∧ (key ∉ after.*1).
Proof.
  intros Hnd Hpub Hvisit Hrun.
  rewrite convert_eq in Hrun. unfold Object_convert in Hrun.
  apply bind_Ok_inv in Hrun as (σc & stc & Hbind & Hrun).
  apply bind_Ok_inv in Hrun as (σd & obj1 & Hscan & Hrun).
  apply bind_Ok_inv in Hrun as (σ3 & obj2 & Htext & [= <- <-]).
  rewrite for_each_app in Hbind.
  apply bind_Ok_inv in Hbind as (σa & sta & Hbefore & Hbind). simpl in Hbind.
  apply bind_Ok_inv in Hbind as (σb & stb & Hstep & Hafter).
  rewrite fmap_app, fmap_cons in Hnd. simpl in Hnd.
  apply NoDup_app in Hnd as (_ & Hdisj & Hnd2).
  apply NoDup_cons in Hnd2 as [Hafter_k _].
  assert (key ∉ before.*1) as Hbefore_k.
  { intros Hk. apply (Hdisj key Hk). by left. }
  exists σa, sta, σb, stb, σc, stc, σd, obj1.
  repeat split; try done.
  destruct Hvisit as [->|Hm]; [done|]. unfold hasattr.
  rewrite (Object_bind_loop_obj_kept _ _ _ _ _ _ _ _ _ Hbefore Hbefore_k).
  simpl. rewrite lookup_empty. rewrite bool_decide_false by (by intros [? ?]).
  rewrite bool_decide_false by done. by destruct _overwrite.
Qed.

(** The key of a field is not touched by the loop over the children when
    the field is immediate. *)
Lemma Object_scan_immediate_kept attrs mapping key val cs obj σ σ' obj' :
  NoDup attrs.*1 → (key, Some val) ∈ attrs → immediate val = true →
  (∀ t key' val', mapping !! t = Some (key', val') →
     (key', Some val') ∈ attrs ∧ immediate val' = false) →
  for_each (Object_scan convert mapping) cs obj σ = (σ', Ok obj') →
  obj' !! key = obj !! key.
Proof.
  intros Hnd Hin Himm Hmap Hscan.
  eapply Object_scan_untouched; [exact Hscan|].
  intros c key' val' _ Hl ->. destruct (Hmap _ _ _ Hl) as [Hin' Himm'].
  assert (Some val = Some val') as [= ->] by (eapply NoDup_keys_agree; eauto).
  congruence.
Qed.

(** X9. An [Attribute] bound to a visited field [key] of an [Object] puts
    under [key] the attribute of the node of the [Object] (not of a child)
    whose name the instance carries once the conversion is over, converted as
    [AttributeOf] with that name converts it. *)
Theorem Object_Attribute_field (_name : option string) (_none : bool)
    (_text : option (pystr → result value)) (_overwrite : bool)
    (attrs : list (string * option schema)) (key : string) (id : nat)
    (_name' : option string) (_type : option pystr → result value)
    (_none' : bool) (v : node) σ σ' obj :
  NoDup attrs.*1 →
  (key, Some (Attribute id _name' _type _none')) ∈ attrs →
  public key = true →
  _overwrite = true ∨ key ∉ _Object_methods →
  convert v (Object _name _none _text _overwrite attrs) σ = (σ', Ok (VObject obj)) →
  ∃ a x, Attribute_name id _name' σ' = Some a
         ∧ AttributeOf_convert a _type _none' v = Ok x
         ∧ obj !! key = Some x.
Proof.
  intros Hnd Hin Hpub Hvisit Hrun.
  pose proof Hin as Hin'. apply list_elem_of_split in Hin' as (before & after & ->).
  destruct (Object_run_split _ _ _ _ _ _ _ _ _ _ _ _ Hnd Hpub Hvisit Hrun)
    as (σa & sta & σb & stb & σc & stc & σd & obj1
        & Hbefore & Hgo & Hstep & Hafter & Hscan & Htext & Hkb & Hka).
  destruct sta as [obj0 mapping0]. simpl in Hgo.
  unfold Object_bind in Hstep. rewrite Hpub, Hgo in Hstep.
  apply bind_Ok_inv in Hstep as (σf & [] & Hfill & Hstep).
  apply bind_Ok_inv in Hstep as (σr & x & Hread & [= <- <-]).
  unfold Attribute_convert in Hread. injection Hread as <- Hx.
  assert (∃ a, Attribute_name id _name' σf = Some a) as [a Ha].
  { unfold Attribute_fill in Hfill.
    destruct (Attribute_name id _name' σa) as [a|] eqn:E.
    - injection Hfill as <-. eauto.
    - injection Hfill as <-. exists key. unfold Attribute_name in *.
      destruct _name'; [done|]. apply lookup_insert_eq. }
  assert (σf ⊆ σ') as Hsub.
  { transitivity σc.
    - eapply ext_subseteq.
      pose proof (frames_Object_bind (λ _, True) _overwrite v after
                    (<[key:=x]> obj0, mapping0)) as Hfr.
      specialize (Hfr ltac:(intros; apply covered_field_anything) σf).
      by rewrite Hafter in Hfr.
    - transitivity σd.
      + eapply ext_subseteq.
        pose proof (Q_Object_scan (λ A, @frames (λ _, True) A) (λ _, True) (λ _, True)
          (@frames_lift _) (@frames_bind _) convert v
          ltac:(intros; by apply frames_convert) stc.2 stc.1
          ltac:(intros ????; apply covered_anything) σc) as Hfr.
        by rewrite Hscan in Hfr.
      + unfold Object_text in Htext. destruct _text as [f|].
        * destruct (text v) as [s|].
          -- unfold bind, lift in Htext. destruct (f s); by injection Htext as <- _.
          -- by injection Htext as <- _.
        * by injection Htext as <- _. }
  exists a, x. split.
  - unfold Attribute_name in *. destruct _name'; [done|].
    by eapply lookup_weaken.
  - split.
    + unfold AttributeOf_convert. rewrite Ha in Hx. by rewrite Hx.
    + rewrite (Object_text_other _ _ _ _ _ _ _ Htext (public_not_text _ Hpub)).
      destruct (Object_bind_loop _ _ _ _ _ _ _ _ Hbefore) as [_ Hmap0].
      destruct (Object_bind_loop _ _ _ _ _ _ _ _ Hafter) as [_ Hmap1].
      assert (Hmap : ∀ t key' val', stc.2 !! t = Some (key', val') →
                (key', Some val')
                  ∈ before ++ (key, Some (Attribute id _name' _type _none')) :: after
                ∧ immediate val' = false).
      { intros t key' val' Hl.
        destruct (Hmap1 _ _ _ Hl) as [Hl1|(Hw & _ & Hi & _)].
        - simpl in Hl1. destruct (Hmap0 _ _ _ Hl1) as [Hl0|(Hw & _ & Hi & _)].
          + simpl in Hl0. by rewrite lookup_empty in Hl0.
          + split; [|done]. apply elem_of_app. by left.
        - split; [|done]. apply elem_of_app. right. by right. }
      rewrite (Object_scan_immediate_kept _ _ key _ _ _ _ _ _ Hnd Hin eq_refl
                 Hmap Hscan).
      rewrite (Object_bind_loop_obj_kept _ _ _ _ _ _ _ _ _ Hafter Hka). simpl.
      apply lookup_insert_eq.
Qed.
(** The match table a conversion that returns ends its first loop with
    registers deferred fields of the schema, each under its match name. *)
Lemma Object_run_mapping call _overwrite v attrs σ σ' st t key val :
  for_each (Object_bind call _overwrite v) attrs (∅, ∅) σ = (σ', Ok st) →
  st.2 !! t = Some (key, val) →
  (key, Some val) ∈ attrs ∧ immediate val = false ∧ t = match_name key val.
Proof.
  intros Hbind Hl. destruct (Object_bind_loop _ _ _ _ _ _ _ _ Hbind) as [_ Hmap].
  destruct (Hmap _ _ _ Hl) as [Hl0|(? & _ & ? & ?)]; [|done].
  simpl in Hl0. by rewrite lookup_empty in Hl0.
Qed.

(** X10. A [Many] bound to a visited field of an [Object] always puts a
    list under its key, with one element for each child of the node of the
    [Object] that carries the name of the [Many]: the empty list when there
    is none. *)
Theorem Object_Many_field (_name : option string) (_none : bool)
    (_text : option (pystr → result value)) (_overwrite : bool)
    (attrs : list (string * option schema)) (key : string) (T : schema)
    (_name' : option string) (_none' : bool) (v : node) σ σ' obj :
  NoDup attrs.*1 →
  (key, Some (Many T _name' _none')) ∈ attrs →
  public key = true →
  _overwrite = true ∨ key ∉ _Object_methods →
  convert v (Object _name _none _text _overwrite attrs) σ = (σ', Ok (VObject obj)) →
  ∃ l, obj !! key = Some (VList l)
       ∧ List.length l = List.length (filter (selected _name') (children v)).
Proof.
  intros Hnd Hin Hpub Hvisit Hrun.
  pose proof Hrun as Hrun'. rewrite convert_eq in Hrun'. unfold Object_convert in Hrun'.
  apply bind_Ok_inv in Hrun' as (σ0 & st & Hbind & _).
  pose proof Hin as Hin'. apply list_elem_of_split in Hin' as (before & after & ->).
  destruct (Object_run_split _ _ _ _ _ _ _ _ _ _ _ _ Hnd Hpub Hvisit Hrun)
    as (σa & sta & σb & stb & σc & stc & σd & obj1
        & Hbefore & Hgo & Hstep & Hafter & Hscan & Htext & Hkb & Hka).
  assert (st = stc) as ->.
  { rewrite for_each_app in Hbind. rewrite (bind_Ok _ _ _ _ _ Hbefore) in Hbind.
    simpl in Hbind. rewrite (bind_Ok _ _ _ _ _ Hstep) in Hbind. congruence. }
  destruct sta as [obj0 mapping0]. simpl in Hgo.
  unfold Object_bind in Hstep. rewrite Hpub, Hgo in Hstep.
  apply bind_Ok_inv in Hstep as (σm & x & Hmany & [= <- <-]).
  rewrite Many_convert_selected in Hmany.
  apply bind_Ok_inv in Hmany as (σl & l & Hl & [= _ <-]).
  exists l. split; [|by eapply map_M_length].
  rewrite (Object_text_other _ _ _ _ _ _ _ Htext (public_not_text _ Hpub)).
  rewrite (Object_scan_immediate_kept _ _ key _ _ _ _ _ _ Hnd Hin eq_refl
             ltac:(intros t k w Hw; by destruct (Object_run_mapping _ _ _ _ _ _ _ _ _ _ Hbind Hw)
                     as (? & ? & _)) Hscan).
  rewrite (Object_bind_loop_obj_kept _ _ _ _ _ _ _ _ _ Hafter Hka). simpl.
  apply lookup_insert_eq.
Qed.

Lemma Object_bind_deferred call _overwrite v st key val σ :
  public key = true → _overwrite || negb (hasattr st.1 key) = true →
  immediate val = false →
  Object_bind call _overwrite v st (key, Some val) σ
  = (σ, Ok (st.1, <[match_name key val := (key, val)]> st.2)).
Proof.
  destruct st as [obj mapping]. simpl. intros -> -> Himm. unfold match_name.
  destruct val; simpl in *; try discriminate; by destruct _name.
Qed.

(** X11. A deferred field that is visited, and is the only one with its
    match name, is bound to the last child that carries this name, whatever
    [_overwrite] is: the aggregate holds under the key of the field what the
    field's schema returned on that child when the loop over the children
    reached it. *)
Theorem Object_deferred_field (_name : option string) (_none : bool)
    (_text : option (pystr → result value)) (_overwrite : bool)
    (attrs : list (string * option schema)) (key : string) (val : schema)
    (v : node) (pre post : list node) (c : node) σ σ' obj :
  NoDup attrs.*1 →
  (key, Some val) ∈ attrs → public key = true → immediate val = false →
  _overwrite = true ∨ key ∉ _Object_methods →
  (∀ key' val', (key', Some val') ∈ attrs → immediate val' = false →
                match_name key' val' = match_name key val → key' = key) →
  children v = pre ++ c :: post →
  tag c = match_name key val →
  (∀ c', c' ∈ post → tag c' ≠ tag c) →
  convert v (Object _name _none _text _overwrite attrs) σ = (σ', Ok (VObject obj)) →
  ∃ σ0 st σ1 obj1 σ2 x,
    for_each (Object_bind convert _overwrite v) attrs (∅, ∅) σ = (σ0, Ok st)
    ∧ for_each (Object_scan convert st.2) pre st.1 σ0 = (σ1, Ok obj1)
    ∧ convert c val σ1 = (σ2, Ok x)
    ∧ obj !! key = Some x.
Proof.
  intros Hnd Hin Hpub Himm Hvisit Huniq Hcs Htag Hlast Hrun.
  pose proof Hrun as Hrun'. rewrite convert_eq in Hrun'. unfold Object_convert in Hrun'.
  apply bind_Ok_inv in Hrun' as (σ0 & st & Hbind & _).
  pose proof Hin as Hin'. apply list_elem_of_split in Hin' as (before & after & Hattrs).
  subst attrs.
  destruct (Object_run_split _ _ _ _ _ _ _ _ _ _ _ _ Hnd Hpub Hvisit Hrun)
    as (σa & sta & σb & stb & σc & stc & σd & obj1
        & Hbefore & Hgo & Hstep & Hafter & Hscan & Htext & Hkb & Hka).
  assert (st = stc ∧ σ0 = σc) as [-> ->].
  { rewrite for_each_app in Hbind. rewrite (bind_Ok _ _ _ _ _ Hbefore) in Hbind.
    simpl in Hbind. rewrite (bind_Ok _ _ _ _ _ Hstep) in Hbind.
    rewrite Hafter in Hbind. by injection Hbind as <- <-. }
  rewrite (Object_bind_deferred _ _ _ _ _ _ _ Hpub Hgo Himm) in Hstep.
  injection Hstep as <- <-.
  assert (stc.2 !! tag c = Some (key, val)) as Hentry.
  { rewrite (Object_bind_loop_entry_kept _ _ _ _ (tag c) _ _ _ _ Hafter).
    - simpl. rewrite Htag. apply lookup_insert_eq.
    - intros key' val' Hin' Himm' Hsame.
      assert (key' = key) as ->.
      { apply (Huniq key' val'); [|done|congruence].
        apply elem_of_app. right. by right. }
      destruct Hka. apply list_elem_of_fmap. by exists (key, Some val'). }
  rewrite Hcs in Hscan.
  destruct (Object_scan_last _ _ _ _ _ _ _ _ _ _ _ Hscan Hentry)
    as (σ1 & obj2 & σ2 & x & Hpre & Hx & Hkey).
  { intros c' key' val' Hc' Hl ->.
    destruct (Object_run_mapping _ _ _ _ _ _ _ _ _ _ Hbind Hl) as (Hw & _ & Ht).
    assert (Some val' = Some val) as [= ->] by (eapply NoDup_keys_agree; eauto).
    apply (Hlast c' Hc'). congruence. }
  exists σc, stc, σ1, obj2, σ2, x. repeat split; try done.
  by rewrite (Object_text_other _ _ _ _ _ _ _ Htext (public_not_text _ Hpub)).
Qed.

Lemma Object_scan_keys call mapping cs : ∀ obj σ σ' obj',
  for_each (Object_scan call mapping) cs obj σ = (σ', Ok obj') →
  ∀ k, is_Some (obj' !! k) →
       is_Some (obj !! k) ∨ ∃ c w, c ∈ cs ∧ mapping !! tag c = Some (k, w).
Proof.
  induction cs as [|c cs IH]; intros obj σ σ' obj' Hrun k Hk; simpl in Hrun.
  - injection Hrun as _ <-. by left.
  - apply bind_Ok_inv in Hrun as (σ1 & obj1 & Hc & Hrest).
    destruct (IH _ _ _ _ Hrest k Hk) as [Hk1|(c' & w & Hc' & Hw)].
    + unfold Object_scan in Hc.
      destruct (mapping !! tag c) as [[key val]|] eqn:Hl.
      * apply bind_Ok_inv in Hc as (σ2 & x & _ & [= _ <-]).
        destruct (decide (key = k)) as [<-|Hne].
        -- right. exists c, val. split; [by left|done].
        -- left. by rewrite lookup_insert_ne in Hk1.
      * injection Hc as _ <-. by left.
    + right. exists c', w. split; [by right|done].
Qed.

(** X12. When a text converter is configured and the conversion returns,
    the aggregate holds under ['_text'] what the converter returned on the
    text of the node, and [None] when the node has no text, whatever the
    none-policy of the [Object]; without a converter there is no such key. *)
Theorem Object_text_slot (_name : option string) (_none : bool)
    (_text : option (pystr → result value)) (_overwrite : bool)
    (attrs : list (string * option schema)) (v : node) σ σ' obj :
  convert v (Object _name _none _text _overwrite attrs) σ = (σ', Ok (VObject obj)) →
  match _text, text v with
  | Some f, Some s => ∃ x, f s = Ok x ∧ obj !! "_text" = Some x
  | Some f, None => obj !! "_text" = Some VNone
  | None, _ => obj !! "_text" = None
  end.
Proof.
  intros Hrun. rewrite convert_eq in Hrun. unfold Object_convert in Hrun.
  apply bind_Ok_inv in Hrun as (σ1 & st & Hbind & Hrun).
  apply bind_Ok_inv in Hrun as (σ2 & obj1 & Hscan & Hrun).
  apply bind_Ok_inv in Hrun as (σ3 & obj2 & Htext & [= _ <-]).
  unfold Object_text in Htext. destruct _text as [f|].
  - destruct (text v) as [s|].
    + apply bind_Ok_inv in Htext as (σ4 & x & Hx & [= _ <-]).
      unfold lift in Hx. injection Hx as _ Hx. exists x. split; [done|].
      apply lookup_insert_eq.
    + injection Htext as _ <-. apply lookup_insert_eq.
  - injection Htext as _ <-.
    assert (∀ k, is_Some (obj1 !! k) → public k = true) as Hpub.
    { intros k Hk.
      destruct (Object_scan_keys _ _ _ _ _ _ _ Hscan k Hk) as [Hk1|(c & w & _ & Hw)].
      - destruct (Object_bind_loop _ _ _ _ _ _ _ _ Hbind) as [Hobj _].
        destruct (Hobj k Hk1) as [[? Hk0]|(? & _ & ? & _)]; [|done].
        simpl in Hk0. by rewrite lookup_empty in Hk0.
      - destruct (Object_bind_loop _ _ _ _ _ _ _ _ Hbind) as [_ Hm].
        destruct (Hm _ _ _ Hw) as [Hw0|(_ & ? & _)]; [|done].
        simpl in Hw0. by rewrite lookup_empty in Hw0. }
    destruct (obj1 !! "_text") eqn:E; [|by destruct (text v)].
    specialize (Hpub "_text"). rewrite E in Hpub. by specialize (Hpub ltac:(eauto)).
Qed.

(** ** Conversions that cannot raise *)

Lemma for_each_returns {A S} (P : S → Prop) (body : S → A → M S) l :
  (∀ s x σ, P s → x ∈ l → ∃ σ' s', body s x σ = (σ', Ok s') ∧ P s') →
  ∀ s σ, P s → ∃ σ' s', for_each body l s σ = (σ', Ok s') ∧ P s'.
Proof.
  induction l as [|x l IH]; intros Hbody s σ Hs; simpl.
  - by exists σ, s.
  - destruct (Hbody s x σ Hs ltac:(by left)) as (σ1 & s1 & Hx & Hs1).
    rewrite (bind_Ok _ _ _ _ _ Hx). apply IH; [|done].
    intros. apply Hbody; [done | by right].
Qed.

Lemma append_loop_returns (call : node → schema → M value) T (cs : list node)
    (sel : node → bool) l σ :
  (∀ c σ, c ∈ cs → ∃ σ' x, call c T σ = (σ', Ok x)) →
  ∃ σ' l', for_each (λ l c, if sel c then x <- call c T ;; ret (l ++ [x]) else ret l)
             cs l σ = (σ', Ok l').
Proof.
  intros Hcall.
  destruct (for_each_returns (λ _, True)
              (λ l c, if sel c then x <- call c T ;; ret (l ++ [x]) else ret l) cs)
    with (s := l) (σ := σ) as (σ' & l' & H & _); [|done|by eauto].
  intros l0 c σ0 _ Hc. destruct (sel c); [|by eexists _, _].
  destruct (Hcall c σ0 Hc) as (σ1 & x & Hx).
  rewrite (bind_Ok _ _ _ _ _ Hx). by eexists _, _.
Qed.

(** X13. A schema made of [Element], [Value], [Bool] and [Str] with the
    none-policy, of attribute extractors and text converters that always
    return, and of lists, dictionaries and objects of such schemas converts
    every node: no shape of the input, no missing or extra child, attribute or
    text, [str] or [unicode], makes it raise.  With lxml an [Attribute] of
    such a schema is an attribute of an [Object] or has a name of its own;
    with xml.etree it is any [Attribute]. *)
Theorem never_raises_returns (self : schema) (v : node) σ :
  never_raises self → ∃ σ' x, convert v self σ = (σ', Ok x).
Proof.
  revert self σ. induction v as [t a txt cs IH] using node_children_ind.
  intros self σ Hsafe. rewrite convert_eq.
  assert (Hcall : ∀ T, never_raises T →
            ∀ c σ, c ∈ children (Node t a txt cs) → ∃ σ' x, convert c T σ = (σ', Ok x)).
  { intros T HT c σ0 Hc. by apply IH. }
  inversion Hsafe as
    [ | | | | at' ty nm no Hty | id nm ty no Hnm Hty
    | T tg nm no HT | T nm no HT | T ow nm no HT
    | nm no tx ow attrs Htx Hattrs ]; subst.
  - by eexists _, _.
  - by eexists _, _.
  - unfold lift, Bool_convert. cbn [text is_none andb].
    destruct txt; cbn [is_none andb]; [|by eexists _, _].
    match goal with |- context [if ?b then _ else _] => destruct b end; by eexists _, _.
  - unfold lift, Str_convert. simpl. destruct txt as [[s|u]|]; simpl; [| |by eexists _, _];
      destruct _strip; by eexists _, _.
  - unfold lift, AttributeOf_convert, attrib_get. destruct (_ && _); [by eexists _, _|].
    destruct (Hty (attrib (Node t a txt cs) !! at')) as [x ->].
    by eexists _, _.
  - unfold Attribute_convert.
    assert (∃ s, attrib_get (attrib (Node t a txt cs)) (Attribute_name id nm σ) = Ok s)
      as [s ->].
    { unfold attrib_get. destruct Hnm as [->|[n ->]]; [|by eexists].
      destruct (Attribute_name id nm σ); by eexists. }
    destruct (_ && _); [by eexists _, _|].
    destruct (Hty s) as [x ->]. by eexists _, _.
  - unfold List_convert.
    destruct (append_loop_returns convert T (children (Node t a txt cs))
                (λ c, is_none tg || bool_decide (tg = Some (tag c))) [] σ (Hcall T HT))
      as (σ' & l & Hl).
    unfold List_body. rewrite (bind_Ok _ _ _ _ _ Hl). by eexists _, _.
  - unfold Many_convert.
    destruct (append_loop_returns convert T (children (Node t a txt cs))
                (λ c, is_none nm || bool_decide (Some (tag c) = nm)) [] σ (Hcall T HT))
      as (σ' & l & Hl).
    unfold Many_body. rewrite (bind_Ok _ _ _ _ _ Hl). by eexists _, _.
  - unfold Dict_convert.
    destruct (for_each_returns (λ _, True) (Dict_body convert T ow)
                (children (Node t a txt cs))) with (s := (∅ : gmap string value)) (σ := σ)
      as (σ' & d & Hd & _); [|done|].
    + intros d c σ0 _ Hc. unfold Dict_body. destruct (_ || _); [|by eexists _, _].
      destruct (Hcall T HT c σ0 Hc) as (σ1 & x & Hx).
      rewrite (bind_Ok _ _ _ _ _ Hx). by eexists _, _.
    + rewrite (bind_Ok _ _ _ _ _ Hd). by eexists _, _.
  - unfold Object_convert.
    set (w := Node t a txt cs) in *.
    destruct (for_each_returns
                (λ st : gmap string value * gmap string (string * schema),
                   ∀ t' key val, st.2 !! t' = Some (key, val) → never_raises val)
                (Object_bind convert ow w) attrs)
      with (s := ((∅, ∅) : gmap string value * gmap string (string * schema))) (σ := σ)
      as (σ1 & st & Hst & Hmap).
    + intros st0 [key val] σ0 Hst0 Hin.
      assert (∃ σ' st', Object_bind convert ow w st0 (key, val) σ0 = (σ', Ok st'))
        as (σ' & st' & Hstep).
      { destruct st0 as [obj mapping]. simpl.
        destruct (public key); [|by eexists _, _].
        destruct val as [val|]; [|by eexists _, _].
        destruct (_ || _); [|by eexists _, _].
        pose proof (Hattrs key val Hin) as Hval.
        destruct val; simpl; try (destruct _name; by eexists _, _).
        - destruct Hval as [Hval|(? & ? & ? & ? & [=] & _)].
          inversion Hval as [ | | | | | | | T' nm' no' HT' | | ]; subst.
          destruct (append_loop_returns convert val (children w)
                      (λ c, is_none _name || bool_decide (Some (tag c) = _name)) [] σ0
                      (Hcall val HT')) as (σ' & l & Hl).
          unfold Many_convert, Many_body. rewrite bind_assoc.
          rewrite (bind_Ok _ _ _ _ _ Hl). by eexists _, _.
        - assert (returns_always _type) as Hty'.
          { destruct Hval as [Hval|(? & ? & ? & ? & [= _ _ <- _] & Hty')]; [|done].
            by inversion Hval. }
          unfold bind, Attribute_fill, Attribute_convert, attrib_get.
          destruct (Attribute_name id _name σ0) as [n|] eqn:En; simpl.
          + rewrite En. destruct (_ && _); [by eexists _, _|].
            match goal with |- context [_type ?o] => destruct (Hty' o) as [x ->] end.
            by eexists _, _.
          + assert (Attribute_name id _name (<[id := key]> σ0) = Some key) as ->.
            { unfold Attribute_name in *. destruct _name; [done|].
              apply lookup_insert_eq. }
            destruct (_ && _); [by eexists _, _|].
            match goal with |- context [_type ?o] => destruct (Hty' o) as [x ->] end.
            by eexists _, _. }
      exists σ', st'. split; [done|].
      apply Object_bind_step in Hstep
        as [->|[(val' & x & -> & _ & _ & ->)|(val' & -> & _ & Himm & ->)]]; simpl.
      * done.
      * done.
      * intros t' key' val'' Hl.
        destruct (decide (match_name key val' = t')) as [<-|Hne].
        -- rewrite lookup_insert_eq in Hl. injection Hl as <- <-.
           destruct (Hattrs key val' Hin) as [Hval|(? & ? & ? & ? & -> & _)];
             [done | discriminate Himm].
        -- rewrite lookup_insert_ne in Hl by done. eauto.
    + intros t' key val Hl. simpl in Hl. by rewrite lookup_empty in Hl.
    + rewrite (bind_Ok _ _ _ _ _ Hst).
      destruct (for_each_returns (λ _, True) (Object_scan convert st.2) (children w))
        with (s := st.1) (σ := σ1) as (σ2 & obj & Hobj & _); [|done|].
      * intros obj c σ0 _ Hc. unfold Object_scan.
        destruct (st.2 !! tag c) as [[key val]|] eqn:Hl; [|by eexists _, _].
        destruct (Hcall val (Hmap _ _ _ Hl) c σ0 Hc) as (σ' & x & Hx).
        rewrite (bind_Ok _ _ _ _ _ Hx). by eexists _, _.
      * rewrite (bind_Ok _ _ _ _ _ Hobj). unfold Object_text.
        destruct tx as [f|]; [|by eexists _, _].
        destruct (text w) as [s|]; [|by eexists _, _].
        destruct (Htx f eq_refl s) as [x Hx]. unfold bind, lift. rewrite Hx.
        by eexists _, _.
Qed.

(** ** Case and surrounding whitespace *)



Lemma lower_empty s : Py.lower s = "" ↔ s = "".
Proof. by destruct s. Qed.









Lemma replace_twice x y s : Py.replace x y (Py.replace x y s) = Py.replace x y s.
Proof.
  unfold Py.replace. induction s as [|c s IH]; [done|].
  simpl. rewrite IH. f_equal.
  destruct (Ascii.eqb c x) eqn:E; [|by rewrite E].
  destruct (Ascii.eqb y x) eqn:E'; [by apply Ascii.eqb_eq in E' | done].
Qed.

Lemma replace_text_twice x y t :
  Py.replace_text x y (Py.replace_text x y t) = Py.replace_text x y t.
Proof.
  destruct t as [s|u]; cbn [Py.replace_text]; f_equal.
  - apply replace_twice.
  - rewrite <- list_fmap_compose. apply list_fmap_ext. intros _ c _. simpl.
    destruct (c =? Py.ord x)%N eqn:E; [|by rewrite E].
    by destruct (Py.ord y =? Py.ord x)%N.
Qed.

(** X15. [Complex] reads the letters i and j alike: a text, [str] or
    [unicode], and the same text with every i written j convert alike, to the
    same number or to the same exception. *)
Theorem Complex_reads_i_as_j (_name _name' : option string) (_none : bool)
    (v v' : node) (s : pystr) σ :
  text v = Some s → text v' = Some (Py.replace_text "i" "j" s) →
  convert v' (Complex _name' _none) σ = convert v (Complex _name _none) σ.
Proof.
  intros Hs Hs'. rewrite !convert_eq. unfold lift, Complex_convert.
  rewrite Hs, Hs'. simpl. by rewrite replace_text_twice.
Qed.

(** ** The flag [_overwrite] of an object *)

Lemma hasattr_fresh (obj : gmap string value) key :
  obj !! key = None → key ∉ _Object_methods → hasattr obj key = false.
Proof.
  intros Hk Hm. unfold hasattr. rewrite Hk.
  rewrite bool_decide_false by (by intros [? ?]). by rewrite bool_decide_false.
Qed.

Lemma hasattr_method (obj : gmap string value) key :
  key ∈ _Object_methods → hasattr obj key = true.
Proof.
  intros Hm. unfold hasattr. rewrite (bool_decide_true (key ∈ _)) by done.
  apply orb_true_r.
Qed.

Lemma Object_bind_method call v st key val σ :
  key ∈ _Object_methods → Object_bind call false v st (key, val) σ = (σ, Ok st).
Proof.
  intros Hm. destruct st as [obj mapping]. simpl.
  destruct (public key); [|done]. destruct val as [val|]; [|done].
  by rewrite (hasattr_method _ _ Hm).
Qed.

(** X16. With [overwrite] disabled, a field whose name is the name of a
    method of the aggregate -- get, has_key, items, iteritems, iterkeys,
    itervalues, keys, values, viewkeys or viewvalues -- is never bound: no
    node puts a value under such a key, whatever the type of the field. *)
Theorem Object_drops_method_names (_name : option string) (_none : bool)
    (_text : option (pystr → result value))
    (attrs : list (string * option schema)) (key : string) (v : node) σ σ' obj :
  key ∈ _Object_methods →
  convert v (Object _name _none _text false attrs) σ = (σ', Ok (VObject obj)) →
  obj !! key = None.
Proof.
  intros Hm Hrun. rewrite convert_eq in Hrun. unfold Object_convert in Hrun.
  apply bind_Ok_inv in Hrun as (σ1 & st & Hbind & Hrun).
  apply bind_Ok_inv in Hrun as (σ2 & obj1 & Hscan & Hrun).
  apply bind_Ok_inv in Hrun as (σ3 & obj2 & Htext & [= _ <-]).
  assert (Hst : st.1 !! key = None ∧ ∀ t k w, st.2 !! t = Some (k, w) → k ≠ key).
  { eapply (for_each_inv
      (λ st : gmap string value * gmap string (string * schema),
         st.1 !! key = None ∧ ∀ t k w, st.2 !! t = Some (k, w) → k ≠ key));
      [| |exact Hbind].
    - intros st0 [key' val] σa σb st1 [Ho Hmap] _ Hstep.
      destruct (decide (key' = key)) as [->|Hne].
      + rewrite Object_bind_method in Hstep by done. by injection Hstep as _ <-.
      + apply Object_bind_step in Hstep
          as [->|[(val' & x & -> & _ & _ & ->)|(val' & -> & _ & _ & ->)]]; simpl.
        * done.
        * split; [by rewrite lookup_insert_ne|done].
        * split; [done|]. intros t k w Hl.
          destruct (decide (match_name key' val' = t)) as [<-|Hnt].
          -- rewrite lookup_insert_eq in Hl. by injection Hl as <- <-.
          -- rewrite lookup_insert_ne in Hl by done. by eapply Hmap.
    - split; [apply lookup_empty|]. intros t k w Hl. simpl in Hl.
      by rewrite lookup_empty in Hl. }
  destruct Hst as [Ho Hmap].
  assert (key ≠ "_text") as Hkt.
  { intros ->. unfold _Object_methods in Hm. set_solver. }
  rewrite (Object_text_other _ _ _ _ _ _ _ Htext Hkt).
  rewrite (Object_scan_untouched _ _ _ key _ _ _ _ Hscan); [done|].
  intros c key' val' _ Hl. by eapply Hmap.
Qed.

Lemma Object_bind_flag call v fields : ∀ st σ,
  NoDup fields.*1 →
  (∀ k, k ∈ fields.*1 → st.1 !! k = None) →
  (∀ key, key ∈ fields.*1 → public key = true → key ∉ _Object_methods) →
  for_each (Object_bind call true v) fields st σ
  = for_each (Object_bind call false v) fields st σ.
Proof.
  induction fields as [|[key val] fields IH]; intros st σ Hnd Hfresh Hm; [done|].
  rewrite fmap_cons in Hnd. apply NoDup_cons in Hnd as [Hk Hnd]. simpl in Hk.
  assert (Hstep : Object_bind call true v st (key, val) σ
                  = Object_bind call false v st (key, val) σ).
  { destruct st as [obj mapping]. simpl.
    destruct (public key) eqn:Hpub; [|done]. destruct val as [val|]; [|done].
    rewrite hasattr_fresh; [done| |].
    - apply (Hfresh key). rewrite fmap_cons. by left.
    - apply Hm; [rewrite fmap_cons; by left|done]. }
  simpl for_each. unfold bind. rewrite <- Hstep.
  destruct (Object_bind call true v st (key, val) σ) as [σ1 [st1|e]] eqn:E; [|done].
  apply IH; [done| |].
  - intros k Hin.
    assert (k ≠ key) as Hne by (by intros ->).
    assert (st.1 !! k = None) as Hstk by (apply Hfresh; rewrite fmap_cons; by right).
    apply Object_bind_step in E
      as [->|[(val' & x & -> & _ & _ & ->)|(val' & -> & _ & _ & ->)]]; simpl.
    + done.
    + by rewrite lookup_insert_ne.
    + done.
  - intros k Hin. apply Hm. rewrite fmap_cons. by right.
Qed.

(** X17. When the fields of an [Object] have distinct names and none of the
    public ones is named like a method of the aggregate, the flag
    [overwrite] changes nothing: on every node and from every store the
    conversion with the flag set and the conversion with the flag cleared
    are the same computation -- same store, same value, same exception. *)
Theorem Object_overwrite_has_no_effect (_name _name' : option string)
    (_none _none' : bool) (_text : option (pystr → result value))
    (attrs : list (string * option schema)) (v : node) σ :
  NoDup attrs.*1 →
  (∀ key, key ∈ attrs.*1 → public key = true → key ∉ _Object_methods) →
  convert v (Object _name _none _text true attrs) σ
  = convert v (Object _name' _none' _text false attrs) σ.
Proof.
  intros Hnd Hm. rewrite !convert_eq. unfold Object_convert.
  unfold bind at 1 5. rewrite Object_bind_flag; [done|done| |done].
  intros k _. apply lookup_empty.
Qed.

End Engine.

(** ** The engine on decimal integers

    The statements below run the engine with [Py.int_decimal] for [int]; no
    floating-point literal occurs in them, and [float] and [complex] are taken
    to reject every text.  No character outside ASCII is lower-cased or
    encoded in them: the case mapping is that of ASCII and the encoder writes
    a byte for a code point.  The library is lxml where nothing else is
    said. *)

Abbreviation convert_with :=
  (convert Py.int_decimal Py.no_literal Py.no_literal Py.tolower_ascii Py.encode_bytes).
Abbreviation convert_decimal := (convert_with lxml).
Abbreviation value_decimal := (@value Empty_set Empty_set).
Abbreviation schema_decimal := (@schema Empty_set Empty_set).

(** C1, on the code.  With two children [a], the aggregate keeps the value of
    the last one also when [overwrite] is disabled, where the documentation
    of [Object] promises the first: the loop over the children of
    [Object._convert] sets the attribute without looking at [_overwrite]. *)
Theorem Object_keeps_last_child :
  convert_decimal repeated_xml (Repeated false) ∅
    = (∅, Ok (VObject {[ "a" := VInt 2 ]}))
  ∧ convert_decimal repeated_xml (Repeated true) ∅
    = (∅, Ok (VObject {[ "a" := VInt 2 ]})).
Proof. split; vm_compute; reflexivity. Qed.

(** C2 with [int] the decimal reader. *)
Lemma MyObject_foo_decimal :
  convert_decimal foo_xml MyObject ∅
  = ({[ 0 := "bar" ]},
     Ok (VObject {[ "bar" := VStr "baz";
                    "b" := VList [VStr "qwe"; VStr "asd"];
                    "c" := VList [VStr "y"; VStr "z"; VNone];
                    "num" := VInt 200 ]})).
Proof. exact (MyObject_foo Py.int_decimal Py.no_literal Py.no_literal
            Py.tolower_ascii Py.encode_bytes lxml eq_refl). Defined.

(** C4 on [Int()] and the element [<i/>]. *)
Lemma Int_absent_text :
  convert_decimal (Node "i" ∅ None []) (Int None true) ∅ = (∅, Ok VNone).
Proof.
  exact (scalar_leaf_absent_text Py.int_decimal Py.no_literal Py.no_literal
            Py.tolower_ascii Py.encode_bytes lxml
           (Int None true) (Node "i" ∅ None []) ∅ eq_refl eq_refl eq_refl).
Defined.

(** C5 with [int] the decimal reader. *)
Lemma Dict_duplicate_tags_decimal :
  convert_decimal x_xml (Dict (Int None true) false None true) ∅
    = (∅, Ok (VDict {[ "a" := VInt 12; "b" := VInt 34; "c" := VInt 56 ]}))
  ∧ convert_decimal x_xml (Dict (Int None true) true None true) ∅
    = (∅, Ok (VDict {[ "a" := VInt 78; "b" := VInt 34; "c" := VInt 56 ]})).
Proof.
  exact (proj1 (Dict_duplicate_tags Py.int_decimal Py.no_literal Py.no_literal
            Py.tolower_ascii Py.encode_bytes lxml)
           eq_refl eq_refl eq_refl eq_refl ∅).
Defined.

(** C6 on the [str] texts '  TRUE  ' and 'maybe', and on the [unicode] text
    of [<a>&#160;True</a>], a no-break space before 'True'. *)
Lemma Bool_TRUE_and_maybe :
  convert_decimal (Node "a" ∅ (Some (PyStr "  TRUE  ")) []) (Bool None true) ∅
    = (∅, Ok (VBool true))
  ∧ convert_decimal (Node "a" ∅ (Some (PyStr "maybe")) []) (Bool None false) ∅
    = (∅, Ok (VBool false))
  ∧ convert_decimal (Node "a" ∅ (Some (PyUnicode (160%N :: Py.codes "True"))) [])
      (Bool None true) ∅
    = (∅, Ok (VBool true)).
Proof.
  split; [|split].
  - exact (Bool_convert_present Py.int_decimal Py.no_literal Py.no_literal
             Py.tolower_ascii Py.encode_bytes lxml
             None true (Node "a" ∅ (Some (PyStr "  TRUE  ")) []) (PyStr "  TRUE  ") ∅
             eq_refl).
  - exact (Bool_convert_present Py.int_decimal Py.no_literal Py.no_literal
             Py.tolower_ascii Py.encode_bytes lxml
             None false (Node "a" ∅ (Some (PyStr "maybe")) []) (PyStr "maybe") ∅
             eq_refl).
  - exact (Bool_convert_present Py.int_decimal Py.no_literal Py.no_literal
             Py.tolower_ascii Py.encode_bytes lxml
             None true (Node "a" ∅ (Some (PyUnicode (160%N :: Py.codes "True"))) [])
             (PyUnicode (160%N :: Py.codes "True")) ∅ eq_refl).
Defined.

(** C7 on an input: the [ValueError] of [int('x')] comes out of a [Dict] in a
    [List] in a [Many] in an [Object] in an [Object]. *)
Lemma nested_ValueError :
  convert_decimal nested_xml Nested ∅ = (∅, Raise ValueError).
Proof.
  apply (ValueError_propagates Py.int_decimal Py.no_literal Py.no_literal
            Py.tolower_ascii Py.encode_bytes lxml).
  eapply (propagates_Object_child _ _ _ _ _ _ nested_xml None true None false _ _ []);
    [reflexivity | reflexivity | reflexivity | reflexivity |].
  eapply (propagates_Object_Many _ _ _ _ _ _ _ None true None false _ Object_dir "c");
    [reflexivity | reflexivity | reflexivity | reflexivity |].
  eapply (propagates_Many _ _ _ _ _ _ _ _ _ _ []); [reflexivity.. |].
  eapply (propagates_List _ _ _ _ _ _ _ _ _ _ _ []); [reflexivity.. |].
  eapply (propagates_Dict _ _ _ _ _ _ _ _ _ _ _ []); [reflexivity.. |].
  apply propagates_leaf. by eapply invalid_Int.
Defined.

(** C9 on the element [<c/>] and the attribute [x]. *)
Lemma missing_attribute_decimal :
  convert_decimal (Node "c" ∅ None []) (Attribute 0 (Some "x") str_ false) ∅
    = (∅, Ok (VStr "None"))
  ∧ convert_decimal (Node "c" ∅ None []) (AttributeOf "x" str_ None false) ∅
    = (∅, Ok (VStr "None")).
Proof.
  split.
  - exact (proj1 (attribute_missing_is_None_string
                    Py.int_decimal Py.no_literal Py.no_literal
            Py.tolower_ascii Py.encode_bytes lxml)
             0 (Some "x") "x" (Node "c" ∅ None []) ∅ eq_refl eq_refl).
  - exact (proj2 (attribute_missing_is_None_string
                    Py.int_decimal Py.no_literal Py.no_literal
            Py.tolower_ascii Py.encode_bytes lxml)
             "x" None (Node "c" ∅ None []) ∅ eq_refl).
Defined.

(** The conversion of the docstring, run. *)
Lemma foo_run :
  convert_decimal foo_xml MyObject ∅
  = ({[ 0 := "bar" ]},
     Ok (VObject {[ "bar" := VStr "baz";
                    "b" := VList [VStr "qwe"; VStr "asd"];
                    "c" := VList [VStr "y"; VStr "z"; VNone];
                    "num" := VInt 200 ]})).
Proof. vm_compute. reflexivity. Qed.

(** C10 on the docstring example. *)
Lemma MyObject_foo_keys :
  ∃ obj : gmap string value_decimal,
    VObject {[ "bar" := VStr "baz";
               "b" := VList [VStr "qwe"; VStr "asd"];
               "c" := VList [VStr "y"; VStr "z"; VNone];
               "num" := VInt 200 ]} = VObject obj
    ∧ (∀ k, is_Some (obj !! k) →
            (public k = true
             ∧ ∃ val : schema_decimal, (k, Some val) ∈
                 Object_dir ++
                 [ ("b", Some (List (Str false None true) None None true));
                   ("bar", Some (Attribute 0 None str_ true));
                   ("c", Some (Many (AttributeOf "x" str_ None true) (Some "c") true));
                   ("num", Some (Int (Some "i") true)) ])
            ∨ (k = "_text" ∧ is_Some (@None (pystr → result value_decimal))))
    ∧ (is_Some (obj !! "_text") ↔ is_Some (@None (pystr → result value_decimal))).
Proof.
  exact (Object_keys_declared Py.int_decimal Py.no_literal Py.no_literal
            Py.tolower_ascii Py.encode_bytes lxml
           (Some "foo") true None false _ foo_xml ∅ _ _ foo_run).
Defined.



(** ** The further properties on inputs *)

(** [MyObject] on an element that has the attributes [keys], [n] and [x] and
    one child [c]: no attribute [bar], no child [b], no child [i]. *)
Lemma keys_MyObject_run :
  convert_decimal keys_xml MyObject ∅
  = ({[ 0 := "bar" ]},
     Ok (VObject {[ "bar" := VNone; "c" := VList [VStr "v"] ]})).
Proof. vm_compute. reflexivity. Qed.

Lemma MyObject_NoDup : NoDup (Object_dir ++
    [ ("b", Some (List (Str false None true) None None true : schema_decimal));
      ("bar", Some (Attribute 0 None str_ true));
      ("c", Some (Many (AttributeOf "x" str_ None true) (Some "c") true));
      ("num", Some (Int (Some "i") true)) ]).*1.
Proof. apply (bool_decide_unpack _). vm_compute. exact I. Qed.

Lemma Repeated_NoDup :
  NoDup (Object_dir ++ [ ("a", Some (Int None true : schema_decimal)) ]).*1.
Proof. apply (bool_decide_unpack _). vm_compute. exact I. Qed.

Lemma not_a_method key : bool_decide (key ∈ _Object_methods) = false → key ∉ _Object_methods.
Proof. intros H Hin. by rewrite bool_decide_true in H. Qed.

(** X2 on the docstring example of [Dict]. *)
Lemma Dict_keys_of_x :
  ∃ d : gmap string value_decimal,
    VDict {[ "a" := VInt 12; "b" := VInt 34; "c" := VInt 56 ]} = VDict d
    ∧ dom d = list_to_set (tag <$> children x_xml).
Proof.
  refine (Dict_keys_are_tags Py.int_decimal Py.no_literal Py.no_literal
            Py.tolower_ascii Py.encode_bytes lxml
            (Int None true) false None true x_xml ∅ ∅ _ _).
  vm_compute. reflexivity.
Defined.

(** X3 on the docstring example of [Dict]: the second [a] is not looked at. *)
Lemma Dict_of_x_without_second_a :
  convert_decimal x_xml (Dict (Int None true) false None true) ∅
  = convert_decimal
      (Node "x" ∅ None
         [ Node "a" ∅ (Some (PyStr "12")) []; Node "b" ∅ (Some (PyStr "34")) [];
           Node "c" ∅ (Some (PyStr "56")) [] ])
      (Dict (Int None true) true None true) ∅.
Proof.
  refine (Dict_converts_first_of_each_tag Py.int_decimal Py.no_literal Py.no_literal
            Py.tolower_ascii Py.encode_bytes lxml
            (Int None true) true None None true true x_xml _ ∅ _).
  vm_compute. reflexivity.
Defined.

(** X5 on the element [<i/>]. *)
Lemma absent_text_of_i :
  convert_decimal (Node "i" ∅ None []) (Int None false) ∅ = (∅, Raise TypeError)
  ∧ convert_decimal (Node "i" ∅ None []) (Float None false) ∅ = (∅, Raise TypeError)
  ∧ convert_decimal (Node "i" ∅ None []) (Complex None false) ∅
    = (∅, Raise AttributeError)
  ∧ convert_decimal (Node "i" ∅ None []) (Str true None false) ∅
    = (∅, Raise AttributeError)
  ∧ convert_decimal (Node "i" ∅ None []) (Bool None false) ∅
    = (∅, Raise AttributeError)
  ∧ convert_decimal (Node "i" ∅ None []) (Unicode true None false) ∅
    = (∅, Ok (VUnicode (Py.codes "None"))).
Proof.
  exact (absent_text_without_none_policy Py.int_decimal Py.no_literal Py.no_literal
            Py.tolower_ascii Py.encode_bytes lxml
           None true (Node "i" ∅ None []) ∅ eq_refl).
Defined.

(** X7 on the docstring example: the second conversion of [foo_xml]. *)
Lemma MyObject_foo_again :
  convert_decimal foo_xml MyObject {[ 0 := "bar" ]}
  = ({[ 0 := "bar" ]},
     Ok (VObject {[ "bar" := VStr "baz";
                    "b" := VList [VStr "qwe"; VStr "asd"];
                    "c" := VList [VStr "y"; VStr "z"; VNone];
                    "num" := VInt 200 ]})).
Proof.
  refine (convert_again Py.int_decimal Py.no_literal Py.no_literal
            Py.tolower_ascii Py.encode_bytes lxml
            foo_xml MyObject ∅ _ _ _ foo_run).
  intros i _ Hi. change (i ∈ @nil nat) in Hi. by apply elem_of_nil in Hi.
Defined.

(** X8 on [MyObject] and an element without a child [i]: no key [num]. *)
Lemma MyObject_without_num :
  ({[ "bar" := VNone; "c" := VList [VStr "v"] ]} : gmap string value_decimal) !! "num"
  = None.
Proof.
  refine (Object_field_without_child Py.int_decimal Py.no_literal Py.no_literal
            Py.tolower_ascii Py.encode_bytes lxml
            (Some "foo") true None false _ "num" (Int (Some "i") true)
            keys_xml ∅ _ _ MyObject_NoDup _ eq_refl eq_refl _ keys_MyObject_run).
  - apply (list_elem_of_lookup_2 _ 29). reflexivity.
  - intros c Hc. apply list_elem_of_singleton in Hc as ->. discriminate.
Defined.

(** X9 on the docstring example: the field [bar]. *)
Lemma MyObject_foo_bar :
  ∃ a (x : value_decimal),
    Attribute_name 0 None ({[ 0 := "bar" ]} : gmap nat string) = Some a
    ∧ AttributeOf_convert lxml a str_ true foo_xml = Ok x
    ∧ ({[ "bar" := VStr "baz";
          "b" := VList [VStr "qwe"; VStr "asd"];
          "c" := VList [VStr "y"; VStr "z"; VNone];
          "num" := VInt 200 ]} : gmap string value_decimal) !! "bar" = Some x.
Proof.
  refine (Object_Attribute_field Py.int_decimal Py.no_literal Py.no_literal
            Py.tolower_ascii Py.encode_bytes lxml
            (Some "foo") true None false _ "bar" 0 None str_ true
            foo_xml ∅ _ _ MyObject_NoDup _ eq_refl _ foo_run).
  - apply (list_elem_of_lookup_2 _ 27). reflexivity.
  - right. apply not_a_method. reflexivity.
Defined.

(** X10 on the docstring example: the field [c], three children [c]. *)
Lemma MyObject_foo_c :
  ∃ l : list value_decimal,
    ({[ "bar" := VStr "baz";
        "b" := VList [VStr "qwe"; VStr "asd"];
        "c" := VList [VStr "y"; VStr "z"; VNone];
        "num" := VInt 200 ]} : gmap string value_decimal) !! "c" = Some (VList l)
    ∧ List.length l = List.length (filter (selected (Some "c")) (children foo_xml)).
Proof.
  refine (Object_Many_field Py.int_decimal Py.no_literal Py.no_literal
            Py.tolower_ascii Py.encode_bytes lxml
            (Some "foo") true None false _ "c" (AttributeOf "x" str_ None true)
            (Some "c") true foo_xml ∅ _ _ MyObject_NoDup _ eq_refl _ foo_run).
  - apply (list_elem_of_lookup_2 _ 28). reflexivity.
  - right. apply not_a_method. reflexivity.
Defined.
Lemma Object_dir_no_field {F C} key (val : @schema F C) :
  (key, Some val) ∉ @Object_dir F C.
Proof.
  unfold Object_dir. intros Hin.
  apply list_elem_of_fmap in Hin as (k & Heq & _). discriminate Heq.
Qed.

(** X11 on [<r><a>1</a><a>2</a></r>]: the field [a] holds what [Int]
    returned on the second child. *)
Lemma Repeated_second_a :
  ∃ σ0 st σ1 (obj1 : gmap string value_decimal) σ2 x,
    for_each (Object_bind lxml convert_decimal false repeated_xml)
      (Object_dir ++ [ ("a", Some (Int None true)) ]) (∅, ∅) ∅ = (σ0, Ok st)
    ∧ for_each (Object_scan convert_decimal st.2)
        [ Node "a" ∅ (Some (PyStr "1")) [] ] st.1 σ0
      = (σ1, Ok obj1)
    ∧ convert_decimal (Node "a" ∅ (Some (PyStr "2")) []) (Int None true) σ1 = (σ2, Ok x)
    ∧ ({[ "a" := VInt 2 ]} : gmap string value_decimal) !! "a" = Some x.
Proof.
  refine (Object_deferred_field Py.int_decimal Py.no_literal Py.no_literal
            Py.tolower_ascii Py.encode_bytes lxml
            None true None false _ "a" (Int None true) repeated_xml
            [ Node "a" ∅ (Some (PyStr "1")) [] ] [] (Node "a" ∅ (Some (PyStr "2")) [])
            ∅ ∅ _ Repeated_NoDup _ eq_refl eq_refl _ _ eq_refl eq_refl _ _).
  - apply (list_elem_of_lookup_2 _ 26). reflexivity.
  - right. apply not_a_method. reflexivity.
  - intros key' val' Hin _ _. apply elem_of_app in Hin as [Hin|Hin].
    + by apply Object_dir_no_field in Hin.
    + apply list_elem_of_singleton in Hin. by injection Hin as -> _.
  - intros c' Hc'. by apply elem_of_nil in Hc'.
  - vm_compute. reflexivity.
Defined.

(** X12 on [<t>hello</t>] and an [Object] with [text=str] and no field. *)
Lemma Object_text_hello :
  ∃ x : value_decimal,
    Ok (VStr "hello") = Ok x
    ∧ ({[ "_text" := VStr "hello" ]} : gmap string value_decimal) !! "_text" = Some x.
Proof.
  refine (Object_text_slot Py.int_decimal Py.no_literal Py.no_literal
            Py.tolower_ascii Py.encode_bytes lxml
            None true (Some (λ t, str_ (Some t))) false Object_dir
            (Node "t" ∅ (Some (PyStr "hello")) []) ∅ ∅ _ _).
  vm_compute. reflexivity.
Defined.

(** X13 on a list of dictionaries of booleans and the nested element. *)
Lemma List_Dict_Bool_returns :
  ∃ σ' (x : value_decimal),
    convert_decimal nested_xml
      (List (Dict (Bool None true) false None true) None None true) ∅ = (σ', Ok x).
Proof.
  refine (never_raises_returns Py.int_decimal Py.no_literal Py.no_literal
            Py.tolower_ascii Py.encode_bytes lxml
            (List (Dict (Bool None true) false None true) None None true)
            nested_xml ∅ _).
  apply never_raises_List, never_raises_Dict, never_raises_Bool.
Defined.


(** X15 on the texts '1+2i' and '1+2j'. *)
Lemma Complex_1_2i :
  convert_decimal (Node "z" ∅ (Some (PyStr "1+2j")) []) (Complex None true) ∅
  = convert_decimal (Node "z" ∅ (Some (PyStr "1+2i")) []) (Complex None true) ∅.
Proof.
  exact (Complex_reads_i_as_j Py.int_decimal Py.no_literal Py.no_literal
            Py.tolower_ascii Py.encode_bytes lxml
           None None true (Node "z" ∅ (Some (PyStr "1+2i")) [])
           (Node "z" ∅ (Some (PyStr "1+2j")) []) (PyStr "1+2i") ∅ eq_refl eq_refl).
Defined.

(** X16 on the field [keys = Attribute()] and an element that has the
    attribute [keys]: the aggregate comes out empty. *)
Lemma Keys_has_no_keys :
  convert_decimal keys_xml Keys ∅ = (∅, Ok (VObject ∅))
  ∧ (∅ : gmap string value_decimal) !! "keys" = None.
Proof.
  assert (Hrun : convert_decimal keys_xml Keys ∅ = (∅, Ok (VObject ∅)))
    by (vm_compute; reflexivity).
  split; [exact Hrun|].
  refine (Object_drops_method_names Py.int_decimal Py.no_literal Py.no_literal
            Py.tolower_ascii Py.encode_bytes lxml
            None true None _ "keys" keys_xml ∅ ∅ ∅ _ Hrun).
  apply (bool_decide_unpack _). reflexivity.
Defined.

(** X17 on [<r><a>1</a><a>2</a></r>] and the field [a = Int()]. *)
Lemma Repeated_either_way :
  convert_decimal repeated_xml (Repeated true) ∅
  = convert_decimal repeated_xml (Repeated false) ∅.
Proof.
  refine (Object_overwrite_has_no_effect Py.int_decimal Py.no_literal Py.no_literal
            Py.tolower_ascii Py.encode_bytes lxml
            None None true true None _ repeated_xml ∅ Repeated_NoDup _).
  apply (proj1 (Forall_forall (λ key, public key = true → key ∉ _Object_methods) _)).
  apply (bool_decide_unpack _). vm_compute. exact I.
Defined.
